(** * ValueOddsTips: the value-pick detection engine of [main.py]

    A shallow embedding of [naive_edge] (the fair-probability estimator and
    the value selector) and of the per-sport ranking loop of [tips], with the
    properties of the specification proved about them.

    Numbers are rationals ([Q], compared with [==]).  The estimator (lines
    51-137) is modelled in exact arithmetic.  The selector (lines 139-160)
    returns a discrete choice, which on doubles depends on how the results of
    its operations are rounded: that rounding is a parameter [rnd] of its
    model (see [no_rounding] and [binary64]).  Dictionaries are
    [gmap string Q],
    the set of outcome names is a [gset string], and the order in which
    [list(outcome_names)] enumerates that set, which Python leaves open, is a
    parameter of the development.  The JSON of a game is typed: a bookmaker
    has a list of markets, a market a list of outcomes, an outcome a name and
    a numeric price; the key [bookmakers] may be missing and a list of
    markets may be empty. *)

From Stdlib Require Import QArith Qround Lqa.
From stdpp Require Import gmap strings list fin_maps sorting.

Local Open Scope Q_scope.
Set Warnings "-clear-no-such-hyp".

(** ** The quotes of a game, as the odds API delivers them *)

Record Outcome := { name : string; price : Q }.
Record Market := { outcomes : list Outcome }.
Record Bookmaker := { markets : list Market }.
Record Game := {
  home_team : option string;
  away_team : option string;
  commence_time : option string;
  bookmakers : option (list Bookmaker)
}.

(** ** Results, early returns and exceptions

    Every [return None] of [naive_edge] is tagged with the failure kind the
    specification gives it; an exception caught by the enclosing [try] is
    [Raised].  [naive_edge] itself collapses all of them to [None]. *)

Inductive exn := IndexError | ZeroDivisionError.

Inductive failure :=
  | InsufficientOutcomes   (* lines 52 and 60 *)
  | NoUsableBookmaker      (* line 98 *)
  | NoConsensus            (* line 116 *)
  | ZeroConsensus          (* line 133 *)
  | NoQualifyingPick       (* line 160 *)
  | Raised (e : exn).      (* lines 162-164 *)

Inductive result (A : Type) :=
  | Ok (a : A)
  | Stop (f : failure).
Arguments Ok {A} a.
Arguments Stop {A} f.

#[global] Instance result_ret : MRet result := λ A a, Ok a.
#[global] Instance result_bind : MBind result := λ A B k r,
  match r with
  | Ok a => k a
  | Stop f => Stop f
  end.

Fixpoint foldlM {A B : Type} (f : B → A → result B) (b : B) (l : list A)
  : result B :=
  match l with
  | [] => Ok b
  | x :: l' => b' ← f b x; foldlM f b' l'
  end.

(** ** Python primitives *)

#[global] Instance Q_inhabited : Inhabited Q := populate 0.

Definition Qltb (a b : Q) : bool := negb (Qle_bool b a).

(** [a / b] on numbers. *)
Definition py_div (a b : Q) : result Q :=
  if Qeq_bool b 0 then Stop (Raised ZeroDivisionError) else Ok (a / b).

(** [sum(xs)]. *)
Definition py_sum (xs : list Q) : Q := foldl Qplus 0 xs.

(** [d.values()]; the order is the map's, and [py_sum] does not depend on it
    up to [==] (see [py_sum_perm]). *)
Definition dict_values (d : gmap string Q) : list Q := (map_to_list d).*2.

(** [sorted(xs)] on numbers, by insertion. *)
Fixpoint insert_asc (x : Q) (l : list Q) : list Q :=
  match l with
  | [] => [x]
  | y :: l' => if Qle_bool x y then x :: y :: l' else y :: insert_asc x l'
  end.

Definition sorted (xs : list Q) : list Q := foldr insert_asc [] xs.

(** ** [naive_edge] *)

Record BmData := {
  vig_free : gmap string Q;
  outcomes_dict : gmap string Q
}.

(** [bookmaker['markets'][0]] *)
Definition first_market (bookmaker : Bookmaker) : result Market :=
  match markets bookmaker with
  | m :: _ => Ok m
  | [] => Stop (Raised IndexError)
  end.

(** Lines 55-57, one bookmaker. *)
Definition add_names (outcome_names : gset string) (bookmaker : Bookmaker)
  : result (gset string) :=
  m ← first_market bookmaker;
  Ok (foldl (λ s outcome, {[ name outcome ]} ∪ s) outcome_names (outcomes m)).

(** Lines 68-70. *)
Definition outcomes_dict_of (os : list Outcome) : gmap string Q :=
  foldl (λ d outcome, <[ name outcome := price outcome ]> d) ∅ os.

(** Lines 73-77, one name. *)
Definition implied_step (od : gmap string Q) (implied_probs : gmap string Q)
    (nm : string) : result (gmap string Q) :=
  match od !! nm with
  | Some p => v ← py_div 1 p; Ok (<[ nm := v ]> implied_probs)
  | None => Ok (<[ nm := 0 ]> implied_probs)
  end.

(** Lines 85-90, one name. *)
Definition devig_step (implied_probs : gmap string Q) (total_implied : Q)
    (od : gmap string Q) (st : gmap string Q * gmap string Q) (nm : string)
  : gmap string Q * gmap string Q :=
  let '(vf, best_odds_per_outcome) := st in
  let vf := <[ nm := (implied_probs !!! nm) / total_implied ]> vf in
  match od !! nm with
  | Some p =>
      if match best_odds_per_outcome !! nm with
         | None => true
         | Some b => Qltb b p
         end
      then (vf, <[ nm := p ]> best_odds_per_outcome)
      else (vf, best_odds_per_outcome)
  | None => (vf, best_odds_per_outcome)
  end.

(** Lines 67-95, one bookmaker. *)
Definition scan_bookmaker (outcome_names : list string)
    (st : gmap string Q * list BmData) (bookmaker : Bookmaker)
  : result (gmap string Q * list BmData) :=
  let '(best_odds_per_outcome, bookmaker_data) := st in
  m ← first_market bookmaker;
  let od := outcomes_dict_of (outcomes m) in
  implied_probs ← foldlM (implied_step od) ∅ outcome_names;
  let total_implied := py_sum (dict_values implied_probs) in
  if Qeq_bool total_implied 0 then Ok (best_odds_per_outcome, bookmaker_data)
  else
    let '(vf, best') :=
      foldl (devig_step implied_probs total_implied od)
            (∅, best_odds_per_outcome) outcome_names in
    Ok (best', bookmaker_data ++ [ {| vig_free := vf; outcomes_dict := od |} ]).

(** Lines 104-111, one bookmaker. *)
Definition collect_step (best_odds_per_outcome : gmap string Q) (nm : string)
    (probs_for_consensus : list Q) (bm_data : BmData) : list Q :=
  let is_best :=
    match outcomes_dict bm_data !! nm with
    | Some p =>
        match best_odds_per_outcome !! nm with
        | Some b => Qeq_bool p b
        | None => false
        end
    | None => false
    end in
  if is_best then probs_for_consensus
  else if Qltb 0 (vig_free bm_data !!! nm)
       then probs_for_consensus ++ [vig_free bm_data !!! nm]
       else probs_for_consensus.

(** Lines 102-117: the candidate list of one outcome. *)
Definition candidates (best_odds_per_outcome : gmap string Q)
    (bookmaker_data : list BmData) (nm : string) : result (list Q) :=
  let probs_for_consensus :=
    foldl (collect_step best_odds_per_outcome nm) [] bookmaker_data in
  if (length probs_for_consensus =? 0)%nat then
    let vig_free_probs_all :=
      (λ bm_data, vig_free bm_data !!! nm) <$>
        List.filter (λ bm_data, Qltb 0 (vig_free bm_data !!! nm))
                    bookmaker_data in
    if (length vig_free_probs_all =? 0)%nat then Stop NoConsensus
    else Ok vig_free_probs_all
  else Ok probs_for_consensus.

(** Lines 119-129. *)
Definition median (probs_for_consensus : list Q) : Q :=
  let sorted_probs := sorted probs_for_consensus in
  let n := length sorted_probs in
  if (n =? 1)%nat then sorted_probs !!! 0%nat
  else if (n mod 2 =? 0)%nat
       then (sorted_probs !!! (n / 2 - 1)%nat + sorted_probs !!! (n / 2)%nat) / 2
       else sorted_probs !!! (n / 2)%nat.

(** Lines 101-129, one name. *)
Definition consensus_step (best_odds_per_outcome : gmap string Q)
    (bookmaker_data : list BmData) (consensus_probs : gmap string Q)
    (nm : string) : result (gmap string Q) :=
  probs_for_consensus ← candidates best_odds_per_outcome bookmaker_data nm;
  Ok (<[ nm := median probs_for_consensus ]> consensus_probs).

(** Lines 131-137. *)
Definition fair_probs_of (outcome_names : list string)
    (consensus_probs : gmap string Q) : result (gmap string Q) :=
  let total_consensus := py_sum (dict_values consensus_probs) in
  if Qeq_bool total_consensus 0 then Stop ZeroConsensus
  else Ok (foldl (λ fair_probs nm,
                    <[ nm := (consensus_probs !!! nm) / total_consensus ]>
                      fair_probs)
                 ∅ outcome_names).

(** *** The selector (lines 139-160), on doubles

    A double is a rational number, and [>] and [>=] on doubles compare their
    values exactly.  What doubles change is that the result of an arithmetic
    operation, and the value of a decimal literal, is the double nearest to
    the exact result.  [rnd x] stands for the double that the exact result
    [x] is rounded to: the selector is modelled for an arbitrary [rnd], with
    [binary64] for the doubles of Python and [no_rounding] for exact
    arithmetic. *)

Definition no_rounding (x : Q) : Q := x.

(** The greatest [e] with [2^e <= n/d], for positive [n] and [d]. *)
Definition floor_log2 (n d : Z) : Z :=
  let e := (Z.log2 n - Z.log2 d)%Z in
  if (0 <=? e)%Z
  then (if (n <? d * 2 ^ e)%Z then e - 1 else e)%Z
  else (if (n * 2 ^ (- e) <? d)%Z then e - 1 else e)%Z.

(** The integer nearest to [n/d], the even one of two at the same distance,
    for [n >= 0] and [d > 0]. *)
Definition round_half_even (n d : Z) : Z :=
  let q := (n / d)%Z in
  let r := (n mod d)%Z in
  match (2 * r ?= d)%Z with
  | Lt => q
  | Gt => (q + 1)%Z
  | Eq => if Z.even q then q else (q + 1)%Z
  end.

(** The double nearest to [x] (53 significant bits, round half to even);
    the exponent is not bounded, so this is the rounding of Python's floats
    away from overflow and from the subnormal numbers. *)
Definition binary64 (x : Q) : Q :=
  let n := Z.abs (Qnum x) in
  let d := Z.pos (Qden x) in
  if (n =? 0)%Z then 0
  else
    let s := (52 - floor_log2 n d)%Z in
    let m := if (0 <=? s)%Z then round_half_even (n * 2 ^ s) d
             else round_half_even n (d * 2 ^ (- s)) in
    let v := if (0 <=? s)%Z then Qmake m (Z.to_pos (2 ^ s))
             else inject_Z (m * 2 ^ (- s)) in
    if (Qnum x <? 0)%Z then - v else v.

(** Lines 143-155, one name; the state is [(best_pick, best_odds, best_roi)]. *)
Definition select_step (rnd : Q → Q)
    (fair_probs best_odds_per_outcome : gmap string Q)
    (st : option string * Q * Q) (nm : string) : option string * Q * Q :=
  let '(best_pick, best_odds, best_roi) := st in
  match best_odds_per_outcome !! nm with
  | None => st
  | Some best_price =>
      let fair_prob := fair_probs !!! nm in
      let expected_roi := rnd (rnd (fair_prob * best_price) - 1) in
      if Qltb best_roi expected_roi then (Some nm, best_price, expected_roi)
      else st
  end.

(** The literal [0.05] of line 157. *)
Definition threshold (rnd : Q → Q) : Q := rnd (5 # 100).

(** Lines 139-155: the loop, from [(None, 0, -1)]. *)
Definition select_loop (rnd : Q → Q) (outcome_names : list string)
    (fair_probs best_odds_per_outcome : gmap string Q)
  : option string * Q * Q :=
  foldl (select_step rnd fair_probs best_odds_per_outcome)
        (None, 0, -1) outcome_names.

(** Lines 139-160. *)
Definition select (rnd : Q → Q) (outcome_names : list string)
    (fair_probs best_odds_per_outcome : gmap string Q)
  : result (option string * Q * Q) :=
  let '(best_pick, best_odds, best_roi) :=
    select_loop rnd outcome_names fair_probs best_odds_per_outcome in
  if Qle_bool (threshold rnd) best_roi
  then Ok (best_pick, best_odds, best_roi)
  else Stop NoQualifyingPick.

Section NaiveEdge.

(** The rounding of the selector's arithmetic. *)
Variable rnd : Q → Q.

(** [list(outcome_names)]: some enumeration of the set.  The properties
    below assume of it what Python guarantees: every element of the set, each
    once. *)
Variable set_to_list : gset string → list string.

(** Lines 51-62: the bookmakers and the outcome universe. *)
Definition outcome_universe (game : Game)
  : result (list Bookmaker * list string) :=
  match bookmakers game with
  | None | Some [] => Stop InsufficientOutcomes
  | Some bms =>
      outcome_names ← foldlM add_names ∅ bms;
      if (size outcome_names <? 2)%nat then Stop InsufficientOutcomes
      else Ok (bms, set_to_list outcome_names)
  end.

(** Lines 64-98. *)
Definition scan (outcome_names : list string) (bms : list Bookmaker)
  : result (gmap string Q * list BmData) :=
  '(best_odds_per_outcome, bookmaker_data) ←
    foldlM (scan_bookmaker outcome_names) (∅, []) bms;
  if (length bookmaker_data =? 0)%nat then Stop NoUsableBookmaker
  else Ok (best_odds_per_outcome, bookmaker_data).

(** Lines 100-129. *)
Definition consensus (outcome_names : list string)
    (best_odds_per_outcome : gmap string Q) (bookmaker_data : list BmData)
  : result (gmap string Q) :=
  foldlM (consensus_step best_odds_per_outcome bookmaker_data) ∅
         outcome_names.

(** Lines 51-137: the estimator.  It yields the outcome names in iteration
    order, the fair probabilities and the best price per outcome. *)
Definition estimate (game : Game)
  : result (list string * gmap string Q * gmap string Q) :=
  '(bms, outcome_names) ← outcome_universe game;
  '(best_odds_per_outcome, bookmaker_data) ← scan outcome_names bms;
  consensus_probs ←
    consensus outcome_names best_odds_per_outcome bookmaker_data;
  fair_probs ← fair_probs_of outcome_names consensus_probs;
  Ok (outcome_names, fair_probs, best_odds_per_outcome).

(** The body of the [try]. *)
Definition naive_edge_run (game : Game) : result (option string * Q * Q) :=
  '(outcome_names, fair_probs, best_odds_per_outcome) ← estimate game;
  select rnd outcome_names fair_probs best_odds_per_outcome.

(** [naive_edge(game)]: [(best_pick, best_odds, best_roi)] or [None]. *)
Definition naive_edge (game : Game) : option (option string * Q * Q) :=
  match naive_edge_run game with
  | Ok r => Some r
  | Stop _ => None
  end.

End NaiveEdge.

(** ** The ranking loop of [tips] (lines 210-225) *)

Definition MAX_PICKS_PER_SPORT : nat := 5.

(** The tuples [(edge, game, pick, odds)] of [value_picks]. *)
Definition ValuePick : Type := Q * Game * option string * Q.

Definition edge_of (x : ValuePick) : Q := x.1.1.1.

(** [value_picks.sort(key=lambda x: x[0], reverse=True)]: a stable sort,
    descending by key; elements with equal keys keep their order. *)
Fixpoint insert_desc (x : ValuePick) (l : list ValuePick) : list ValuePick :=
  match l with
  | [] => [x]
  | y :: l' =>
      if Qltb (edge_of x) (edge_of y) then y :: insert_desc x l'
      else x :: y :: l'
  end.

Definition sort_desc (l : list ValuePick) : list ValuePick :=
  foldr insert_desc [] l.

Section Tips.

Variable rnd : Q → Q.
Variable set_to_list : gset string → list string.

(** Lines 214-218, one game. *)
Definition collect_pick (value_picks : list ValuePick) (game : Game)
  : list ValuePick :=
  match naive_edge rnd set_to_list game with
  | Some (pick, odds, edge) => value_picks ++ [(edge, game, pick, odds)]
  | None => value_picks
  end.

(** Lines 210-225: [None] is the [continue] of line 221. *)
Definition top_picks (games : list Game) : option (list ValuePick) :=
  let value_picks := foldl collect_pick [] games in
  if (length value_picks =? 0)%nat then None
  else Some (take MAX_PICKS_PER_SPORT (sort_desc value_picks)).

End Tips.

(** ** The vocabulary of the specification *)

(** The quote set the code reads from a bookmaker: the outcomes of its first
    market (none when it has no market). *)
Definition quote_set (b : Bookmaker) : list Outcome :=
  match markets b with
  | m :: _ => outcomes m
  | [] => []
  end.

Definition game_bookmakers (game : Game) : list Bookmaker :=
  default [] (bookmakers game).

Definition quote_sets (game : Game) : list (list Outcome) :=
  quote_set <$> game_bookmakers game.

(** The OutcomeUniverse: the distinct outcome names across all quote sets. *)
Definition names_of (bms : list Bookmaker) : gset string :=
  list_to_set (name <$> mjoin (quote_set <$> bms)).

Definition OutcomeUniverse (game : Game) : gset string :=
  names_of (game_bookmakers game).

(** Every quoted price is strictly positive. *)
Definition positive_prices (game : Game) : Prop :=
  Forall (Forall (λ o, 0 < price o)) (quote_sets game).

Definition has_market (b : Bookmaker) : bool :=
  match markets b with
  | _ :: _ => true
  | [] => false
  end.

(** ** Auxiliary definitions for the proofs *)

(** The dictionary [{n: f(n) for n in names}]. *)
Definition dict_of (names : list string) (f : string → Q) : gmap string Q :=
  list_to_map ((λ n, (n, f n)) <$> names).

(** [implied_probs[n]] *)
Definition implied (od : gmap string Q) (n : string) : Q :=
  match od !! n with
  | Some p => 1 / p
  | None => 0
  end.

Definition zero_price (od : gmap string Q) (n : string) : bool :=
  match od !! n with
  | Some p => Qeq_bool p 0
  | None => false
  end.

(** The update of [best_odds_per_outcome] at lines 87-90. *)
Definition best_step (od : gmap string Q) (best : gmap string Q) (n : string)
  : gmap string Q :=
  match od !! n with
  | Some p =>
      if match best !! n with
         | None => true
         | Some b => Qltb b p
         end
      then <[ n := p ]> best else best
  | None => best
  end.

(** [outcomes_dict] of a bookmaker that has a market. *)
Definition quote_dict (b : Bookmaker) : option (gmap string Q) :=
  match markets b with
  | m :: _ => Some (outcomes_dict_of (outcomes m))
  | [] => None
  end.

(** [total_implied] of a quote set over the outcome names. *)
Definition total_implied_of (names : list string) (od : gmap string Q) : Q :=
  py_sum (dict_values (dict_of names (implied od))).

(** A bookmaker is usable when its implied probabilities do not sum to 0. *)
Definition usable (names : list string) (od : gmap string Q) : bool :=
  negb (Qeq_bool (total_implied_of names od) 0).

(** The entry of [bookmaker_data] of a usable bookmaker. *)
Definition row (names : list string) (od : gmap string Q) : BmData :=
  {| vig_free :=
       dict_of names (λ n, (dict_of names (implied od) !!! n)
                           / total_implied_of names od);
     outcomes_dict := od |}.

Definition best_update (names : list string) (best od : gmap string Q)
  : gmap string Q :=
  foldl (best_step od) best names.

(** The best price after a further quote of price [p]. *)
Definition max_price (o : option Q) (p : Q) : Q :=
  match o with
  | None => p
  | Some b => if Qltb b p then p else b
  end.

(** The bookmaker quotes outcome [n] at the best price (lines 105-108). *)
Definition quotes_best (best : gmap string Q) (n : string) (bm : BmData)
  : bool :=
  match outcomes_dict bm !! n with
  | Some p =>
      match best !! n with
      | Some b => Qeq_bool p b
      | None => false
      end
  | None => false
  end.

(** The strictly positive de-vigged probabilities of the bookmakers that do
    not quote [n] at the best price. *)
Definition primary_candidates (best : gmap string Q) (data : list BmData)
    (n : string) : list Q :=
  (λ bm, vig_free bm !!! n) <$>
    List.filter (λ bm, negb (quotes_best best n bm)
                       && Qltb 0 (vig_free bm !!! n)) data.

(** The strictly positive de-vigged probabilities of all bookmakers. *)
Definition fallback_candidates (data : list BmData) (n : string) : list Q :=
  (λ bm, vig_free bm !!! n) <$>
    List.filter (λ bm, Qltb 0 (vig_free bm !!! n)) data.

Definition candidate_list (best : gmap string Q) (data : list BmData)
    (n : string) : list Q :=
  match primary_candidates best data n with
  | [] => fallback_candidates data n
  | l => l
  end.

(** The fallback in the words of the specification: the de-vigged
    probabilities of all bookmakers with a nonzero probability for [n]. *)
Definition nonzero_candidates (data : list BmData) (n : string) : list Q :=
  (λ bm, vig_free bm !!! n) <$>
    List.filter (λ bm, negb (Qeq_bool (vig_free bm !!! n) 0)) data.

(** The candidate list in the words of the specification: the de-vigged
    probabilities of every usable bookmaker except those that quote [n] at
    the best price, with no test on the probability itself. *)
Definition stated_candidates (best : gmap string Q) (data : list BmData)
    (n : string) : list Q :=
  (λ bm, vig_free bm !!! n) <$>
    List.filter (λ bm, negb (quotes_best best n bm)) data.

Definition is_nil {A} (l : list A) : bool :=
  match l with
  | [] => true
  | _ => false
  end.

(** The [outcomes_dict] of every bookmaker, and those of the usable ones. *)
Definition quote_dicts (bms : list Bookmaker) : list (gmap string Q) :=
  (λ b, outcomes_dict_of (quote_set b)) <$> bms.

Definition usable_dicts (names : list string) (bms : list Bookmaker)
  : list (gmap string Q) :=
  List.filter (usable names) (quote_dicts bms).

(** The greatest price quoted for [n], scanning the quote sets in order. *)
Definition best_price (ods : list (gmap string Q)) (n : string) : option Q :=
  foldl (λ o od, match od !! n with
                 | Some p => Some (max_price o p)
                 | None => o
                 end) None ods.

(** [expected_roi] of an outcome with best price [b], as line 150 computes
    it: the product is rounded, then the difference. *)
Definition roi (rnd : Q → Q) (fair : gmap string Q) (n : string) (b : Q) : Q :=
  rnd (rnd ((fair !!! n) * b) - 1).

(** [n] is the first outcome of [names] whose expected ROI is maximal among
    the priced outcomes: strictly greater than every earlier one, at least
    every later one. *)
Definition first_max (rnd : Q → Q) (names : list string)
    (fair best : gmap string Q)
    (n : string) (b : Q) : Prop :=
  best !! n = Some b
  ∧ ∃ l1 l2, names = l1 ++ n :: l2
     ∧ (∀ n' b', n' ∈ l1 → best !! n' = Some b' → roi rnd fair n' b' < roi rnd fair n b)
     ∧ (∀ n' b', n' ∈ l2 → best !! n' = Some b' → roi rnd fair n' b' <= roi rnd fair n b).

(** The qualifying pick of a game, if it has one. *)
Definition value_pick_of (rnd : Q → Q)
    (set_to_list : gset string → list string)
    (game : Game) : option ValuePick :=
  match naive_edge rnd set_to_list game with
  | Some (pick, odds, edge) => Some (edge, game, pick, odds)
  | None => None
  end.

(** [x] may stand before [y] in a ranking: its edge is at least [y]'s. *)
Definition edge_ge (x y : ValuePick) : Prop := edge_of y <= edge_of x.


(** ** Example games *)

Definition quote (n : string) (p : Q) : Outcome := {| name := n; price := p |}.

Definition book (os : list Outcome) : Bookmaker :=
  {| markets := [ {| outcomes := os |} ] |}.

Definition match_of (bms : list Bookmaker) : Game :=
  {| home_team := None; away_team := None; commence_time := None;
     bookmakers := Some bms |}.

(** Scenario A of the specification. *)
Definition scenario_A : Game :=
  match_of [ book [quote "A" 2; quote "B" (18 # 10)];
             book [quote "A" (19 # 10); quote "B" 2] ].

(** Scenario B of the specification. *)
Definition scenario_B : Game :=
  match_of [ book [quote "A" 3; quote "B" (14 # 10)];
             book [quote "A" (15 # 10); quote "B" (26 # 10)] ].

(** The degenerate input: one bookmaker, one outcome. *)
Definition degenerate : Game := match_of [ book [quote "A" 2] ].

(** A game in which the third bookmaker omits outcome A. *)
Definition omitting : Game :=
  match_of [ book [quote "A" 2; quote "B" 2];
             book [quote "A" (19 # 10); quote "B" (19 # 10)];
             book [quote "B" (18 # 10)] ].

(** A game outside the data model: a negative price. *)
Definition negative : Game := match_of [ book [quote "A" (-2); quote "B" 4] ].

(** Another one: every price is negative. *)
Definition all_negative : Game :=
  match_of [ book [quote "A" (-2); quote "B" (-2)] ].

(** ** Further vocabulary: well-formed games *)

(** A game of the data model: at least one bookmaker, every bookmaker with a
    market, at least two distinct outcome names, strictly positive prices. *)
Definition well_formed (game : Game) : Prop :=
  game_bookmakers game ≠ []
  ∧ forallb has_market (game_bookmakers game) = true
  ∧ (2 <= size (OutcomeUniverse game))%nat
  ∧ positive_prices game.

(** Some quote of the quote set has price 0. *)
Definition has_zero_price (names : list string) (od : gmap string Q) : bool :=
  existsb (zero_price od) names.

(** How many elements of a list are at most, respectively at least, [m]. *)
Definition count_le (m : Q) (l : list Q) : nat :=
  length (List.filter (λ x, Qle_bool x m) l).

Definition count_ge (m : Q) (l : list Q) : nat :=
  length (List.filter (λ x, Qle_bool m x) l).

(** ** The rest of [tips] (lines 203-263)

    The text of a block (lines 227-259: the header, the number and time
    formats, the tip of the language model) is not modelled; a block of [msg]
    is represented by the sport name of its header and the picks it lists. *)

Definition SPORTS : list string :=
  [ "soccer_epl"; "soccer_spain_la_liga"; "soccer_germany_bundesliga";
    "soccer_italy_serie_a"; "tennis_atp"; "tennis_wta"; "basketball_nba";
    "americanfootball_nfl"; "handball_euro_championship"; "badminton";
    "darts" ]%string.

Fixpoint string_map (f : Ascii.ascii → Ascii.ascii) (s : string) : string :=
  match s with
  | EmptyString => EmptyString
  | String c s' => String (f c) (string_map f s')
  end.

(** [c.upper()] for an ASCII character. *)
Definition upper_ascii (c : Ascii.ascii) : Ascii.ascii :=
  let n := Ascii.nat_of_ascii c in
  if (97 <=? n)%nat && (n <=? 122)%nat then Ascii.ascii_of_nat (n - 32)
  else c.

(** [s.upper()], exact on ASCII strings (such as the sport identifiers). *)
Definition py_upper (s : string) : string := string_map upper_ascii s.

(** [s.replace(old, new)] for single characters. *)
Definition py_replace (old new : Ascii.ascii) (s : string) : string :=
  string_map (λ c, if Ascii.eqb c old then new else c) s.

(** The characters ['_'] and [' ']. *)
Definition underscore : Ascii.ascii := Ascii.ascii_of_nat 95.
Definition space : Ascii.ascii := Ascii.ascii_of_nat 32.

(** Line 228: [sport.upper().replace('_', ' ')]. *)
Definition sport_name (sport : string) : string :=
  py_replace underscore space (py_upper sport).

Section TipsRun.

Variable rnd : Q → Q.
Variable set_to_list : gset string → list string.

(** What [get_odds(sport)] returns for each sport during the run. *)
Variable odds : string → list Game.

(** Lines 206-229 and 259, one sport: the block appended to [msg], if any. *)
Definition sport_block (sport : string) : option (string * list ValuePick) :=
  let games := odds sport in
  if is_nil games then None
  else match top_picks rnd set_to_list games with
       | None => None
       | Some top => Some (sport_name sport, top)
       end.

(** Lines 203-259: [msg]. *)
Definition tips_blocks : list (string * list ValuePick) :=
  foldl (λ msg sport,
           match sport_block sport with
           | Some block => msg ++ [block]
           | None => msg
           end) [] SPORTS.

(** The calls [kimi_tip(sport_name, pick, odds, edge)] of line 248, in
    order. *)
Definition kimi_requests : list (string * option string * Q * Q) :=
  mjoin ((λ block : string * list ValuePick,
            (λ x : ValuePick, (block.1, x.1.2, x.2, edge_of x)) <$> block.2)
           <$> tips_blocks).

(** Line 263: the reply is the no-picks message. *)
Definition no_picks_reply : bool := is_nil tips_blocks.

End TipsRun.

(** The characters of a string. *)
Fixpoint chars (s : string) : list Ascii.ascii :=
  match s with
  | EmptyString => []
  | String c s' => c :: chars s'
  end.

Definition is_lower_ascii (c : Ascii.ascii) : bool :=
  (97 <=? Ascii.nat_of_ascii c)%nat && (Ascii.nat_of_ascii c <=? 122)%nat.

(** Example odds: scenario B under the first sport, nothing elsewhere. *)
Definition example_odds (sport : string) : list Game :=
  if String.eqb sport "soccer_epl" then [scenario_A; scenario_B; omitting]
  else [].

(** ** [get_odds] and its cache (lines 27-47)

    The HTTP request is the environment's: [net sport] is the response the
    odds API would give for [sport] at the moment of the call, and [now] is
    the reading of [time.time()].  The cache of [functools.lru_cache] is an
    explicit state, least recently used entry first. *)

Inductive Response :=
  | Http (status_code : Z) (json : option (list Game))
  | RequestError.

(** The body of [_get_odds_cached] (lines 29-43): [json] is [None] when
    [r.json()] raises. *)
Definition fetch_odds (r : Response) : list Game :=
  match r with
  | Http status_code json =>
      if (status_code =? 200)%Z then
        match json with
        | Some games => games
        | None => []
        end
      else []
  | RequestError => []
  end.

Definition CacheKey : Type := string * Z.

Definition maxsize : nat := 32.

Fixpoint cache_find (key : CacheKey) (cache : list (CacheKey * list Game))
  : option (list Game) :=
  match cache with
  | [] => None
  | (k, v) :: rest => if decide (k = key) then Some v else cache_find key rest
  end.

Definition cache_remove (key : CacheKey) (cache : list (CacheKey * list Game))
  : list (CacheKey * list Game) :=
  filter (λ e, e.1 ≠ key) cache.

(** A call of a function wrapped by [lru_cache(maxsize=32)]: a hit returns
    the stored value and makes the entry the most recent one; a miss computes
    the value, evicts the least recently used entry if the cache is full, and
    stores the value as the most recent entry. *)
Definition lru_call (key : CacheKey) (compute : list Game)
    (cache : list (CacheKey * list Game))
  : list Game * list (CacheKey * list Game) :=
  match cache_find key cache with
  | Some v => (v, cache_remove key cache ++ [(key, v)])
  | None =>
      (compute,
       (if (maxsize <=? length cache)%nat then tail cache else cache)
         ++ [(key, compute)])
  end.

(** Line 46: [int(time.time()) // 900]. *)
Definition ttl_hash (now : Q) : Z :=
  (Z.quot (Qnum now) (Z.pos (Qden now)) / 900)%Z.

(** [get_odds(sport)] (lines 45-47). *)
Definition get_odds (net : string → Response) (now : Q) (sport : string)
    (cache : list (CacheKey * list Game))
  : list Game * list (CacheKey * list Game) :=
  lru_call (sport, ttl_hash now) (fetch_odds (net sport)) cache.

(** A call of [get_odds] with its environment, and a sequence of calls. *)
Definition Call : Type := (string → Response) * Q * string.

Definition call_key (c : Call) : CacheKey := (c.2, ttl_hash c.1.2).

Definition get_odds_call (c : Call) (cache : list (CacheKey * list Game))
  : list Game * list (CacheKey * list Game) :=
  get_odds c.1.1 c.1.2 c.2 cache.

(** The cache after a sequence of calls. *)
Definition cache_after (calls : list Call)
    (cache : list (CacheKey * list Game)) : list (CacheKey * list Game) :=
  foldl (λ cache c, (get_odds_call c cache).2) cache calls.

(** The invariant of the cache: distinct keys, at most [maxsize] entries. *)
Definition cache_ok (cache : list (CacheKey * list Game)) : Prop :=
  NoDup cache.*1 ∧ (length cache <= maxsize)%nat.

(** A network on which every request succeeds with the given games, and one
    on which every request fails. *)
Definition net_ok (games : list Game) (sport : string) : Response :=
  Http 200 (Some games).

Definition net_down (sport : string) : Response := RequestError.

(** The entry [(key, v)] is in the cache and every entry more recent than it
    has its key in [others]. *)
Definition entry_kept (key : CacheKey) (v : list Game) (others : gset CacheKey)
    (cache : list (CacheKey * list Game)) : Prop :=
  cache_ok cache
  ∧ ∃ pre post, cache = pre ++ (key, v) :: post
                ∧ ∀ k, k ∈ post.*1 → k ∈ others.

(** * Properties *)

(** ** Sums of rationals *)

Lemma foldl_Qplus_acc (a : Q) (l : list Q) : foldl Qplus a l == a + py_sum l.
Proof.
  unfold py_sum. revert a. induction l as [|x l IH]; intros a; simpl.
  - lra.
  - rewrite (IH (a + x)), (IH (0 + x)). lra.
Qed.

Lemma py_sum_nil : py_sum [] == 0.
Proof. reflexivity. Qed.

Lemma py_sum_cons (x : Q) (l : list Q) : py_sum (x :: l) == x + py_sum l.
Proof. unfold py_sum at 1. simpl. rewrite foldl_Qplus_acc. lra. Qed.

Lemma py_sum_perm (l1 l2 : list Q) : l1 ≡ₚ l2 → py_sum l1 == py_sum l2.
Proof.
  induction 1 as [|x l1 l2 _ IH|x y l|l1 l2 l3 _ IH1 _ IH2].
  - reflexivity.
  - rewrite !py_sum_cons, IH. reflexivity.
  - rewrite !py_sum_cons. lra.
  - rewrite IH1. exact IH2.
Qed.

Lemma py_sum_div {A} (f : A → Q) (t : Q) (l : list A) :
  ¬ t == 0 → py_sum ((λ x, f x / t) <$> l) == py_sum (f <$> l) / t.
Proof.
  intros Ht. induction l as [|x l IH].
  - change (0 == 0 / t). field. exact Ht.
  - rewrite !fmap_cons, !py_sum_cons, IH. field. exact Ht.
Qed.

Lemma py_sum_nonneg (l : list Q) : Forall (λ x, 0 <= x) l → 0 <= py_sum l.
Proof.
  induction 1 as [|x l Hx _ IH].
  - rewrite py_sum_nil. lra.
  - rewrite py_sum_cons. lra.
Qed.

Lemma py_sum_pos (l : list Q) :
  l ≠ [] → Forall (λ x, 0 < x) l → 0 < py_sum l.
Proof.
  intros Hne Hall. destruct Hall as [|x l Hx Hl]; [done|].
  rewrite py_sum_cons.
  assert (0 <= py_sum l).
  { apply py_sum_nonneg. eapply Forall_impl; [exact Hl|]. simpl. intros; lra. }
  lra.
Qed.

(** ** Dictionaries filled by a loop over the outcome names *)

Lemma lookup_dict_of (names : list string) (f : string → Q) (k : string) :
  dict_of names f !! k = if decide (k ∈ names) then Some (f k) else None.
Proof.
  unfold dict_of. induction names as [|n names IH].
  - rewrite fmap_nil, list_to_map_nil, lookup_empty.
    by rewrite decide_False by apply not_elem_of_nil.
  - rewrite fmap_cons, list_to_map_cons, lookup_insert, IH. simpl.
    destruct (decide (n = k)) as [Heq|Hne].
    + subst n. by rewrite decide_True by apply list_elem_of_here.
    + destruct (decide (k ∈ names)) as [Hin|Hin].
      * by rewrite decide_True by (by apply list_elem_of_further).
      * rewrite decide_False; [done|].
        intros [?|?]%elem_of_cons; [congruence|done].
Qed.

Lemma lookup_total_dict_of (names : list string) (f : string → Q) (k : string) :
  k ∈ names → dict_of names f !!! k = f k.
Proof.
  intros Hk. rewrite lookup_total_alt, lookup_dict_of.
  by rewrite decide_True.
Qed.

Lemma dom_dict_of (names : list string) (f : string → Q) (k : string) :
  is_Some (dict_of names f !! k) ↔ k ∈ names.
Proof.
  rewrite lookup_dict_of. destruct (decide (k ∈ names)); split; try done.
Qed.

Lemma dict_values_dict_of (names : list string) (f : string → Q) :
  NoDup names → dict_values (dict_of names f) ≡ₚ f <$> names.
Proof.
  intros Hnd. unfold dict_values, dict_of.
  rewrite map_to_list_to_map.
  - rewrite <- list_fmap_compose. done.
  - rewrite <- list_fmap_compose. simpl. by rewrite list_fmap_id.
Qed.

Lemma py_sum_dict_of (names : list string) (f : string → Q) :
  NoDup names → py_sum (dict_values (dict_of names f)) == py_sum (f <$> names).
Proof. intros Hnd. apply py_sum_perm. by apply dict_values_dict_of. Qed.

Lemma foldl_insert_lookup (f : string → Q) (names : list string)
    (d0 : gmap string Q) (k : string) :
  foldl (λ d n, <[ n := f n ]> d) d0 names !! k
  = if decide (k ∈ names) then Some (f k) else d0 !! k.
Proof.
  revert d0. induction names as [|n names IH]; intros d0.
  - simpl foldl. by rewrite decide_False by apply not_elem_of_nil.
  - simpl foldl. rewrite IH, lookup_insert.
    destruct (decide (k ∈ names)) as [Hin|Hin].
    + by rewrite decide_True by (by apply list_elem_of_further).
    + destruct (decide (n = k)) as [Heq|Hne].
      * subst n. by rewrite decide_True by apply list_elem_of_here.
      * rewrite decide_False; [done|].
        intros [?|?]%elem_of_cons; [congruence|done].
Qed.

Lemma foldl_insert_dict_of (f : string → Q) (names : list string) :
  foldl (λ d n, <[ n := f n ]> d) ∅ names = dict_of names f.
Proof.
  apply map_eq. intros k.
  by rewrite foldl_insert_lookup, lookup_dict_of, lookup_empty.
Qed.

(** ** The failure monad *)

(** A loop stops only with a failure one of its steps can stop with. *)
Lemma foldlM_Stop {A B} (P : failure → Prop) (f : B → A → result B) :
  (∀ b x e, f b x = Stop e → P e) →
  ∀ l b e, foldlM f b l = Stop e → P e.
Proof.
  intros Hf l. induction l as [|x l IH]; intros b e; simpl; [done|].
  destruct (f b x) as [b'|e'] eqn:Hfx; simpl.
  - apply IH.
  - intros [= <-]. by eapply Hf.
Qed.

(** ** Lines 72-90: implied and de-vigged probabilities of one bookmaker *)

Lemma implied_step_eq (od d : gmap string Q) (n : string) :
  implied_step od d n
  = if zero_price od n then Stop (Raised ZeroDivisionError)
    else Ok (<[ n := implied od n ]> d).
Proof.
  unfold implied_step, zero_price, implied, py_div.
  destruct (od !! n) as [p|]; [|done]. by destruct (Qeq_bool p 0).
Qed.

Lemma implied_loop (od : gmap string Q) (names : list string)
    (d0 : gmap string Q) :
  foldlM (implied_step od) d0 names
  = if existsb (zero_price od) names then Stop (Raised ZeroDivisionError)
    else Ok (foldl (λ d n, <[ n := implied od n ]> d) d0 names).
Proof.
  revert d0. induction names as [|n names IH]; intros d0; [done|].
  cbn [foldlM existsb foldl]. rewrite implied_step_eq.
  destruct (zero_price od n); [done|]. apply IH.
Qed.

(** The loop of lines 84-90 fills [vig_free] and updates the best prices
    independently of each other. *)
Lemma devig_step_eq (ip : gmap string Q) (t : Q) (od vf best : gmap string Q)
    (n : string) :
  devig_step ip t od (vf, best) n
  = (<[ n := (ip !!! n) / t ]> vf, best_step od best n).
Proof.
  unfold devig_step, best_step. destruct (od !! n) as [p|]; [|done].
  by destruct (match best !! n with Some b => Qltb b p | None => true end).
Qed.

Lemma devig_loop (ip : gmap string Q) (t : Q) (od vf best : gmap string Q)
    (names : list string) :
  foldl (devig_step ip t od) (vf, best) names
  = (foldl (λ d n, <[ n := (ip !!! n) / t ]> d) vf names,
     foldl (best_step od) best names).
Proof.
  revert vf best. induction names as [|n names IH]; intros vf best; [done|].
  cbn [foldl]. rewrite devig_step_eq. apply IH.
Qed.

(** ** Lines 64-98: the scan over the bookmakers *)

Lemma first_market_quote_dict (b : Bookmaker) (m : Market) :
  first_market b = Ok m → quote_dict b = Some (outcomes_dict_of (outcomes m)).
Proof.
  unfold first_market, quote_dict. destruct (markets b); [done|].
  by intros [= ->].
Qed.

Lemma scan_bookmaker_Ok (names : list string) (best : gmap string Q)
    (data : list BmData) (b : Bookmaker) (best' : gmap string Q)
    (data' : list BmData) :
  scan_bookmaker names (best, data) b = Ok (best', data') →
  ∃ od, quote_dict b = Some od
        ∧ existsb (zero_price od) names = false
        ∧ (best', data')
          = if usable names od
            then (best_update names best od, data ++ [row names od])
            else (best, data).
Proof.
  unfold scan_bookmaker.
  destruct (first_market b) as [m|e] eqn:Hm; [|done]. cbn [mbind result_bind].
  rewrite implied_loop.
  destruct (existsb _ names) eqn:Hz; [done|].
  cbn [mbind result_bind].
  rewrite foldl_insert_dict_of, devig_loop, foldl_insert_dict_of.
  intros H. exists (outcomes_dict_of (outcomes m)).
  split; [by apply first_market_quote_dict|]. split; [done|].
  unfold usable, total_implied_of.
  destruct (Qeq_bool _ 0); simpl; by injection H as <- <-.
Qed.

Lemma scan_loop_Ok (names : list string) (bms : list Bookmaker)
    (best : gmap string Q) (data : list BmData) (best' : gmap string Q)
    (data' : list BmData) :
  foldlM (scan_bookmaker names) (best, data) bms = Ok (best', data') →
  ∃ ods, Forall2 (λ b od, quote_dict b = Some od) bms ods
         ∧ Forall (λ od, existsb (zero_price od) names = false) ods
         ∧ data' = data ++ (row names <$> List.filter (usable names) ods)
         ∧ best' = foldl (best_update names) best
                         (List.filter (usable names) ods).
Proof.
  revert best data.
  induction bms as [|b bms IH]; intros best data; cbn [foldlM].
  - intros [= <- <-]. exists []. repeat split; try done.
    by rewrite app_nil_r.
  - destruct (scan_bookmaker names (best, data) b) as [[best1 data1]|e] eqn:Hb;
      [|done].
    cbn [mbind result_bind]. intros Hrest.
    apply scan_bookmaker_Ok in Hb as (od & Hod & Hz & Hst).
    apply IH in Hrest as (ods & Hods & Hzs & -> & ->).
    exists (od :: ods). split; [by constructor|]. split; [by constructor|].
    simpl. destruct (usable names od); injection Hst as -> ->; simpl.
    + by rewrite <- app_assoc.
    + done.
Qed.

Lemma best_step_eq (od best : gmap string Q) (n : string) :
  best_step od best n
  = match od !! n with
    | Some p => <[ n := max_price (best !! n) p ]> best
    | None => best
    end.
Proof.
  unfold best_step, max_price. destruct (od !! n) as [p|]; [|done].
  destruct (best !! n) as [b|] eqn:Hb; [|done].
  destruct (Qltb b p); [done|]. by rewrite insert_id.
Qed.

Lemma best_update_lookup (names : list string) (best od : gmap string Q)
    (n : string) :
  NoDup names →
  best_update names best od !! n
  = if decide (n ∈ names)
    then match od !! n with
         | Some p => Some (max_price (best !! n) p)
         | None => best !! n
         end
    else best !! n.
Proof.
  unfold best_update. intros Hnd. revert best.
  induction Hnd as [|n0 names Hn0 Hnd IH]; intros best.
  - simpl foldl. by rewrite decide_False by apply not_elem_of_nil.
  - simpl foldl. rewrite IH, best_step_eq.
    destruct (decide (n = n0)) as [->|Hne].
    + rewrite (decide_False (P := n0 ∈ names)) by done.
      rewrite decide_True by apply list_elem_of_here.
      destruct (od !! n0) as [p|]; [|done]. by rewrite lookup_insert_eq.
    + assert (Hl : match od !! n0 with
                   | Some p => <[n0:=max_price (best !! n0) p]> best
                   | None => best
                   end !! n = best !! n).
      { destruct (od !! n0); [|done]. by rewrite lookup_insert_ne. }
      rewrite Hl. destruct (decide (n ∈ names)) as [Hin|Hin].
      * by rewrite decide_True by (by apply list_elem_of_further).
      * rewrite (decide_False (P := n ∈ n0 :: names)); [done|].
        intros [?|?]%elem_of_cons; [congruence|done].
Qed.

(** ** Normalising a dictionary by its sum *)

Lemma fmap_lookup_total_dict_of (names : list string) (f : string → Q) :
  (λ n, dict_of names f !!! n) <$> names = f <$> names.
Proof.
  apply list_fmap_ext. intros i n Hn.
  apply lookup_total_dict_of. by eapply list_elem_of_lookup_2.
Qed.

Lemma normalise_sum (names : list string) (f : string → Q) :
  NoDup names →
  ¬ py_sum (dict_values (dict_of names f)) == 0 →
  py_sum (dict_values
            (dict_of names (λ n, (dict_of names f !!! n)
                                 / py_sum (dict_values (dict_of names f)))))
  == 1.
Proof.
  intros Hnd Ht.
  rewrite py_sum_dict_of by done.
  rewrite (py_sum_div (λ n, dict_of names f !!! n)) by done.
  rewrite fmap_lookup_total_dict_of, <- py_sum_dict_of by done.
  field. exact Ht.
Qed.

(** C8 (vig removal).  For a quote set [od] whose implied-probability vector
    over the outcome names ([1/price] for a quoted outcome, [0] for an omitted
    one) has a nonzero sum, the loop of lines 84-90 fills [vig_free] with that
    vector divided by its sum, and the entries of [vig_free] sum to 1. *)
Theorem vig_removal_sums_to_one (names : list string)
    (od ip best : gmap string Q) :
  NoDup names →
  foldlM (implied_step od) ∅ names = Ok ip →
  ¬ py_sum (dict_values ip) == 0 →
  let total_implied := py_sum (dict_values ip) in
  let vf := (foldl (devig_step ip total_implied od) (∅, best) names).1 in
  (∀ n, n ∈ names → ip !! n = Some (implied od n))
  ∧ (∀ n, n ∈ names → vf !! n = Some (implied od n / total_implied))
  ∧ (∀ n, is_Some (vf !! n) → n ∈ names)
  ∧ py_sum (dict_values vf) == 1.
Proof.
  intros Hnd Hip Ht. rewrite implied_loop in Hip.
  destruct (existsb _ names); [done|].
  rewrite foldl_insert_dict_of in Hip. injection Hip as <-.
  cbn zeta. rewrite devig_loop, foldl_insert_dict_of. cbn [fst].
  split; [|split; [|split]].
  - intros n Hn. rewrite lookup_dict_of. by rewrite decide_True.
  - intros n Hn. rewrite lookup_dict_of, decide_True by done.
    by rewrite lookup_total_dict_of.
  - intros n. by rewrite dom_dict_of.
  - by apply normalise_sum.
Qed.

Lemma vig_removal_sums_to_one_witness :
  let names := ["A"; "B"]%string in
  let od := outcomes_dict_of [quote "A" 2; quote "B" (18 # 10)] in
  ∃ ip, foldlM (implied_step od) ∅ names = Ok ip
        ∧ py_sum (dict_values
                    (foldl (devig_step ip (py_sum (dict_values ip)) od)
                           (∅, ∅) names).1) == 1.
Proof.
  intros names od.
  assert (∃ ip, foldlM (implied_step od) ∅ names = Ok ip) as [ip Hip]
    by (eexists; vm_compute; reflexivity).
  exists ip. split; [exact Hip|].
  apply (vig_removal_sums_to_one names od ip ∅).
  - apply NoDup_cons. split; [|apply NoDup_singleton].
    intros H%list_elem_of_singleton. discriminate H.
  - exact Hip.
  - vm_compute in Hip. injection Hip as <-. vm_compute. discriminate.
Defined.

(** ** Lines 51-62: the outcome universe *)

Lemma add_names_inner (os : list Outcome) (s0 : gset string) :
  foldl (λ s outcome, {[ name outcome ]} ∪ s) s0 os
  = s0 ∪ list_to_set (name <$> os).
Proof.
  revert s0. induction os as [|o os IH]; intros s0; simpl.
  - set_solver.
  - rewrite IH. set_solver.
Qed.

Lemma add_names_eq (s0 : gset string) (b : Bookmaker) :
  add_names s0 b
  = if has_market b then Ok (s0 ∪ list_to_set (name <$> quote_set b))
    else Stop (Raised IndexError).
Proof.
  unfold add_names, first_market, has_market, quote_set.
  destruct (markets b) as [|m ?]; [done|].
  cbn [mbind result_bind]. by rewrite add_names_inner.
Qed.

Lemma add_names_loop (bms : list Bookmaker) (s0 : gset string) :
  foldlM add_names s0 bms
  = if forallb has_market bms then Ok (s0 ∪ names_of bms)
    else Stop (Raised IndexError).
Proof.
  unfold names_of. revert s0.
  induction bms as [|b bms IH]; intros s0; cbn [foldlM forallb].
  - simpl. f_equal. set_solver.
  - rewrite add_names_eq. destruct (has_market b); [|done].
    cbn [mbind result_bind andb]. rewrite IH.
    destruct (forallb has_market bms); [|done].
    f_equal. rewrite fmap_cons.
    change (mjoin (quote_set b :: (quote_set <$> bms)))
      with (quote_set b ++ mjoin (quote_set <$> bms)).
    rewrite fmap_app. set_solver.
Qed.

Section Universe.

Variable set_to_list : gset string → list string.
Hypothesis set_to_list_NoDup : ∀ s, NoDup (set_to_list s).
Hypothesis set_to_list_elem : ∀ s x, x ∈ set_to_list s ↔ x ∈ s.

Lemma outcome_universe_Ok (game : Game) (bms : list Bookmaker)
    (names : list string) :
  outcome_universe set_to_list game = Ok (bms, names) →
  bookmakers game = Some bms
  ∧ bms ≠ []
  ∧ forallb has_market bms = true
  ∧ names = set_to_list (OutcomeUniverse game)
  ∧ (2 <= size (OutcomeUniverse game))%nat.
Proof.
  unfold outcome_universe, OutcomeUniverse, game_bookmakers.
  destruct (bookmakers game) as [[|b bms']|]; [done| |done].
  rewrite add_names_loop.
  destruct (forallb has_market (b :: bms')) eqn:Hall; [|done].
  cbn [mbind result_bind default from_option id].
  rewrite (left_id_L ∅ (∪)).
  destruct (size (names_of (b :: bms')) <? 2)%nat eqn:Hsz; [done|].
  intros [= <- <-]. apply Nat.ltb_ge in Hsz. done.
Qed.

Lemma outcome_universe_names (game : Game) (bms : list Bookmaker)
    (names : list string) :
  outcome_universe set_to_list game = Ok (bms, names) →
  NoDup names ∧ (∀ n, n ∈ names ↔ n ∈ OutcomeUniverse game)
  ∧ (2 <= length names)%nat.
Proof.
  intros (_ & _ & _ & -> & Hsz)%outcome_universe_Ok.
  split; [apply set_to_list_NoDup|]. split; [apply set_to_list_elem|].
  assert (Hperm : set_to_list (OutcomeUniverse game)
                  ≡ₚ elements (OutcomeUniverse game)).
  { apply NoDup_Permutation.
    - apply set_to_list_NoDup.
    - apply NoDup_elements.
    - intros x. by rewrite set_to_list_elem, elem_of_elements. }
  rewrite Hperm. exact Hsz.
Qed.

End Universe.

Lemma elem_of_names_of (bms : list Bookmaker) (n : string) :
  n ∈ names_of bms ↔ ∃ b o, b ∈ bms ∧ o ∈ quote_set b ∧ name o = n.
Proof.
  unfold names_of. rewrite elem_of_list_to_set, list_elem_of_fmap.
  split.
  - intros (o & -> & Ho). apply list_elem_of_join in Ho as (os & Ho & Hos).
    apply list_elem_of_fmap in Hos as (b & -> & Hb). by exists b, o.
  - intros (b & o & Hb & Ho & <-). exists o. split; [done|].
    apply list_elem_of_join. exists (quote_set b). split; [done|].
    apply list_elem_of_fmap. by exists b.
Qed.

(** C7 (degenerate input).  A game with no bookmaker quote sets, or with
    fewer than 2 distinct outcome names across its quote sets, is skipped:
    [naive_edge] returns [None].  The body leaves through the
    [InsufficientOutcomes] returns of lines 52 and 60 (or, when a bookmaker
    carries no market at all, through the [IndexError] the [try] catches);
    in neither case does an exception reach the caller. *)
Theorem insufficient_outcomes_skipped (rnd : Q → Q)
    (set_to_list : gset string → list string) (game : Game) :
  game_bookmakers game = [] ∨ (size (OutcomeUniverse game) < 2)%nat →
  naive_edge_run rnd set_to_list game
  = Stop (if forallb has_market (game_bookmakers game)
          then InsufficientOutcomes else Raised IndexError)
  ∧ naive_edge rnd set_to_list game = None.
Proof.
  intros H.
  assert (Hrun : naive_edge_run rnd set_to_list game
                 = Stop (if forallb has_market (game_bookmakers game)
                         then InsufficientOutcomes else Raised IndexError)).
  { unfold naive_edge_run, estimate, outcome_universe.
    unfold OutcomeUniverse, game_bookmakers in *.
    destruct (bookmakers game) as [[|b bms]|]; [done| |done].
    cbn [default from_option id] in *.
    destruct H as [H|H]; [done|].
    rewrite add_names_loop.
    destruct (forallb has_market (b :: bms)); [|done].
    cbn [mbind result_bind]. rewrite (left_id_L ∅ (∪)).
    apply Nat.ltb_lt in H. by rewrite H. }
  split; [exact Hrun|]. unfold naive_edge. by rewrite Hrun.
Qed.

Lemma insufficient_outcomes_skipped_witness :
  naive_edge_run no_rounding elements degenerate = Stop InsufficientOutcomes
  ∧ naive_edge no_rounding elements degenerate = None.
Proof.
  apply (insufficient_outcomes_skipped no_rounding elements degenerate).
  right. vm_compute. lia.
Defined.

(** ** Lines 100-129: candidates and consensus *)

Lemma collect_step_eq (best : gmap string Q) (n : string) (acc : list Q)
    (bm : BmData) :
  collect_step best n acc bm
  = acc ++ (if negb (quotes_best best n bm) && Qltb 0 (vig_free bm !!! n)
            then [vig_free bm !!! n] else []).
Proof.
  unfold collect_step. fold (quotes_best best n bm).
  destruct (quotes_best best n bm); simpl; [by rewrite app_nil_r|].
  destruct (Qltb 0 (vig_free bm !!! n)); [done|by rewrite app_nil_r].
Qed.

Lemma collect_loop (best : gmap string Q) (n : string) (data : list BmData)
    (acc : list Q) :
  foldl (collect_step best n) acc data = acc ++ primary_candidates best data n.
Proof.
  unfold primary_candidates. revert acc.
  induction data as [|bm data IH]; intros acc; cbn [foldl List.filter].
  - by rewrite app_nil_r.
  - rewrite IH, collect_step_eq.
    destruct (negb (quotes_best best n bm) && Qltb 0 (vig_free bm !!! n)).
    + by rewrite fmap_cons, <- app_assoc.
    + by rewrite app_nil_r.
Qed.

Lemma candidates_eq (best : gmap string Q) (data : list BmData) (n : string) :
  candidates best data n
  = if is_nil (candidate_list best data n) then Stop NoConsensus
    else Ok (candidate_list best data n).
Proof.
  unfold candidates, candidate_list. rewrite collect_loop, app_nil_l.
  fold (fallback_candidates data n).
  destruct (primary_candidates best data n) as [|x l]; [|done].
  by destruct (fallback_candidates data n).
Qed.

Lemma consensus_step_eq (best : gmap string Q) (data : list BmData)
    (cp : gmap string Q) (n : string) :
  consensus_step best data cp n
  = if is_nil (candidate_list best data n) then Stop NoConsensus
    else Ok (<[ n := median (candidate_list best data n) ]> cp).
Proof.
  unfold consensus_step. rewrite candidates_eq.
  by destruct (is_nil (candidate_list best data n)).
Qed.

Lemma consensus_loop (best : gmap string Q) (data : list BmData)
    (names : list string) (d0 : gmap string Q) :
  foldlM (consensus_step best data) d0 names
  = if existsb (λ n, is_nil (candidate_list best data n)) names
    then Stop NoConsensus
    else Ok (foldl (λ d n, <[ n := median (candidate_list best data n) ]> d)
                   d0 names).
Proof.
  revert d0. induction names as [|n names IH]; intros d0; [done|].
  cbn [foldlM existsb foldl]. rewrite consensus_step_eq.
  destruct (is_nil (candidate_list best data n)); [done|]. apply IH.
Qed.

Lemma consensus_eq (best : gmap string Q) (data : list BmData)
    (names : list string) :
  consensus names best data
  = if existsb (λ n, is_nil (candidate_list best data n)) names
    then Stop NoConsensus
    else Ok (dict_of names (λ n, median (candidate_list best data n))).
Proof.
  unfold consensus. rewrite consensus_loop.
  by rewrite (foldl_insert_dict_of
                (λ n, median (candidate_list best data n))).
Qed.

Lemma Qltb_lt (a b : Q) : Qltb a b = true ↔ a < b.
Proof.
  unfold Qltb. rewrite negb_true_iff. split.
  - intros H. apply Qnot_le_lt. intros Hle.
    apply Qle_bool_iff in Hle. congruence.
  - intros H. destruct (Qle_bool b a) eqn:Hle; [|done].
    apply Qle_bool_iff in Hle. lra.
Qed.

Lemma Qltb_ge (a b : Q) : Qltb a b = false ↔ b <= a.
Proof.
  unfold Qltb. rewrite negb_false_iff. apply Qle_bool_iff.
Qed.

Lemma candidate_list_pos (best : gmap string Q) (data : list BmData)
    (n : string) :
  Forall (λ x, 0 < x) (candidate_list best data n).
Proof.
  assert (Hf : Forall (λ x, 0 < x) (fallback_candidates data n)).
  { unfold fallback_candidates. apply Forall_fmap, Forall_forall.
    intros bm Hbm. apply list_elem_of_In, filter_In in Hbm as [_ Hpos].
    simpl. by apply Qltb_lt. }
  assert (Hp : Forall (λ x, 0 < x) (primary_candidates best data n)).
  { unfold primary_candidates. apply Forall_fmap, Forall_forall.
    intros bm Hbm. apply list_elem_of_In, filter_In in Hbm as [_ Hpos].
    apply andb_true_iff in Hpos as [_ Hpos]. simpl. by apply Qltb_lt. }
  unfold candidate_list.
  by destruct (primary_candidates best data n).
Qed.

(** ** [sorted] and the median *)

Lemma insert_asc_perm (x : Q) (l : list Q) : insert_asc x l ≡ₚ x :: l.
Proof.
  induction l as [|y l IH]; simpl; [done|].
  destruct (Qle_bool x y); [done|].
  rewrite IH. apply perm_swap.
Qed.

Lemma sorted_perm (l : list Q) : sorted l ≡ₚ l.
Proof.
  unfold sorted. induction l as [|x l IH]; simpl; [done|].
  by rewrite insert_asc_perm, IH.
Qed.

Lemma insert_asc_Sorted (x : Q) (l : list Q) :
  Sorted Qle l → Sorted Qle (insert_asc x l).
Proof.
  induction 1 as [|y l Hl IH Hhd]; simpl; [by repeat constructor|].
  destruct (Qle_bool x y) eqn:Hle.
  - apply Qle_bool_iff in Hle. by repeat constructor.
  - assert (y <= x) as Hyx.
    { apply Qlt_le_weak, Qnot_le_lt. intros H. apply Qle_bool_iff in H.
      congruence. }
    constructor; [done|].
    destruct l as [|z l]; simpl; [by constructor|].
    destruct (Qle_bool x z); constructor; [done|]. by inversion Hhd.
Qed.

Lemma sorted_ascending (l : list Q) : Sorted Qle (sorted l).
Proof.
  unfold sorted. induction l as [|x l IH]; simpl; [constructor|].
  by apply insert_asc_Sorted.
Qed.

Lemma sorted_length (l : list Q) : length (sorted l) = length l.
Proof. by rewrite sorted_perm. Qed.

Lemma median_pos (l : list Q) :
  l ≠ [] → Forall (λ x, 0 < x) l → 0 < median l.
Proof.
  intros Hne Hpos.
  assert (Hs : Forall (λ x, 0 < x) (sorted l)) by by rewrite sorted_perm.
  assert (Hlen : (0 < length (sorted l))%nat).
  { rewrite sorted_length. destruct l; [done|simpl; lia]. }
  unfold median.
  pose proof (λ i, Forall_lookup_total_1 _ (sorted l) i Hs) as Hi.
  simpl in Hi. set (n := length (sorted l)) in *. clearbody n.
  assert (Hhalf : (n / 2 < n)%nat) by (apply Nat.div_lt; lia).
  destruct (n =? 1)%nat eqn:H1; [apply Hi; lia|].
  apply Nat.eqb_neq in H1.
  destruct (n mod 2 =? 0)%nat eqn:H2.
  - assert (0 < sorted l !!! (n / 2 - 1)%nat) by (apply Hi; lia).
    assert (0 < sorted l !!! (n / 2)%nat) by (apply Hi; lia).
    apply Qlt_shift_div_l; lra.
  - apply Hi. lia.
Qed.

Lemma is_nil_false {A} (l : list A) : is_nil l = false ↔ l ≠ [].
Proof. by destruct l. Qed.

(** Every consensus probability is strictly positive, and so is their sum. *)
Lemma consensus_pos (names : list string) (best : gmap string Q)
    (data : list BmData) (cp : gmap string Q) :
  consensus names best data = Ok cp →
  (∀ n, n ∈ names → 0 < cp !!! n)
  ∧ (NoDup names → names ≠ [] → 0 < py_sum (dict_values cp)).
Proof.
  rewrite consensus_eq.
  destruct (existsb _ names) eqn:Hex; [done|]. intros [= <-].
  assert (Hall : ∀ n, n ∈ names → 0 < median (candidate_list best data n)).
  { intros n Hn. apply median_pos; [|apply candidate_list_pos].
    apply is_nil_false. destruct (is_nil _) eqn:Hnil; [|done].
    assert (existsb (λ n, is_nil (candidate_list best data n)) names = true)
      as Hex'; [|congruence].
    apply existsb_exists. exists n. split; [by apply list_elem_of_In|done]. }
  split.
  - intros n Hn. rewrite lookup_total_dict_of by done. by apply Hall.
  - intros Hnd Hne. rewrite py_sum_dict_of by done. apply py_sum_pos.
    + by destruct names.
    + apply Forall_fmap, Forall_forall. intros n Hn. by apply Hall.
Qed.

Lemma Qeq_bool_false (a b : Q) : ¬ a == b → Qeq_bool a b = false.
Proof.
  intros H. destruct (Qeq_bool a b) eqn:E; [|done].
  by apply Qeq_bool_iff in E.
Qed.

Lemma fair_probs_of_eq (names : list string) (cp : gmap string Q) :
  fair_probs_of names cp
  = if Qeq_bool (py_sum (dict_values cp)) 0 then Stop ZeroConsensus
    else Ok (dict_of names (λ n, (cp !!! n) / py_sum (dict_values cp))).
Proof.
  unfold fair_probs_of. destruct (Qeq_bool _ 0); [done|].
  by rewrite (foldl_insert_dict_of (λ n, (cp !!! n) / py_sum (dict_values cp))).
Qed.

(** ** What the scan computes *)

Lemma quote_dict_Some (b : Bookmaker) (od : gmap string Q) :
  quote_dict b = Some od → od = outcomes_dict_of (quote_set b).
Proof.
  unfold quote_dict, quote_set. destruct (markets b); [done|].
  by intros [= <-].
Qed.

Lemma quote_dicts_Forall2 (bms : list Bookmaker) (ods : list (gmap string Q)) :
  Forall2 (λ b od, quote_dict b = Some od) bms ods → ods = quote_dicts bms.
Proof.
  unfold quote_dicts. induction 1 as [|b od bms ods Hb _ IH]; [done|].
  rewrite fmap_cons. f_equal; [by apply quote_dict_Some|exact IH].
Qed.

Lemma best_fold_lookup (names : list string) (ods : list (gmap string Q))
    (best0 : gmap string Q) (n : string) :
  NoDup names → n ∈ names →
  foldl (best_update names) best0 ods !! n
  = foldl (λ o od, match od !! n with
                   | Some p => Some (max_price o p)
                   | None => o
                   end) (best0 !! n) ods.
Proof.
  intros Hnd Hn. revert best0.
  induction ods as [|od ods IH]; intros best0; [done|].
  cbn [foldl]. rewrite IH, best_update_lookup by done.
  by rewrite decide_True by done.
Qed.

Lemma scan_Ok (names : list string) (bms : list Bookmaker)
    (best : gmap string Q) (data : list BmData) :
  NoDup names →
  scan names bms = Ok (best, data) →
  data = row names <$> usable_dicts names bms
  ∧ data ≠ []
  ∧ (∀ n, n ∈ names → best !! n = best_price (usable_dicts names bms) n)
  ∧ Forall (λ od, existsb (zero_price od) names = false) (quote_dicts bms).
Proof.
  intros Hnd. unfold scan.
  destruct (foldlM _ _ bms) as [[best' data']|e] eqn:Hloop; [|done].
  cbn [mbind result_bind].
  destruct (length data' =? 0)%nat eqn:Hlen; [done|]. intros [= <- <-].
  apply scan_loop_Ok in Hloop as (ods & Hods & Hz & Hdata & Hbest).
  apply quote_dicts_Forall2 in Hods as ->. rewrite app_nil_l in Hdata.
  split; [done|]. split.
  { intros ->. done. }
  split; [|done].
  intros n Hn. rewrite Hbest, best_fold_lookup by done.
  by rewrite lookup_empty.
Qed.

Lemma best_price_acc_is_Some (ods : list (gmap string Q)) (n : string)
    (o : option Q) :
  is_Some (foldl (λ o od, match od !! n with
                          | Some p => Some (max_price o p)
                          | None => o
                          end) o ods)
  ↔ is_Some o ∨ ∃ od, od ∈ ods ∧ is_Some (od !! n).
Proof.
  revert o. induction ods as [|od ods IH]; intros o; cbn [foldl].
  - split; [by left|]. intros [H|(od & Hod & _)]; [done|].
    by apply not_elem_of_nil in Hod.
  - rewrite IH. split.
    + intros [H|(od' & Hod' & H)].
      * destruct (od !! n) as [p|] eqn:Hp; [|by left].
        right. exists od. split; [apply list_elem_of_here|by rewrite Hp].
      * right. exists od'. split; [by apply list_elem_of_further|done].
    + intros [H|(od' & Hod' & H)].
      * left. by destruct (od !! n).
      * apply elem_of_cons in Hod' as [->|Hod'].
        -- left. destruct H as [p ->]. done.
        -- right. by exists od'.
Qed.

Lemma best_price_is_Some (ods : list (gmap string Q)) (n : string) :
  is_Some (best_price ods n) ↔ ∃ od, od ∈ ods ∧ is_Some (od !! n).
Proof.
  unfold best_price. rewrite best_price_acc_is_Some. split.
  - intros [[? [=]]|H]; done.
  - by right.
Qed.

Lemma max_price_cases (o : option Q) (p : Q) :
  (max_price o p = p ∧ ∀ b, o = Some b → b <= p)
  ∨ (o = Some (max_price o p) ∧ p <= max_price o p).
Proof.
  unfold max_price. destruct o as [b|].
  - destruct (Qltb b p) eqn:Hlt.
    + left. split; [done|]. intros ? [= <-]. apply Qltb_lt in Hlt. lra.
    + right. split; [done|]. by apply Qltb_ge.
  - left. split; [done|]. done.
Qed.

(** The recorded best price is a quoted price, and no quote exceeds it. *)
Lemma best_price_acc_max (ods : list (gmap string Q)) (n : string)
    (o : option Q) (b : Q) :
  foldl (λ o od, match od !! n with
                 | Some p => Some (max_price o p)
                 | None => o
                 end) o ods = Some b →
  (o = Some b ∨ ∃ od, od ∈ ods ∧ od !! n = Some b)
  ∧ (∀ b0, o = Some b0 → b0 <= b)
  ∧ (∀ od p, od ∈ ods → od !! n = Some p → p <= b).
Proof.
  revert o. induction ods as [|od ods IH]; intros o; cbn [foldl].
  - intros ->. split; [by left|]. split.
    + intros ? [= <-]. lra.
    + intros od p Hod. by apply not_elem_of_nil in Hod.
  - intros H. apply IH in H as (Hor & Hle & Hall).
    destruct (od !! n) as [p|] eqn:Hp.
    + pose proof (Hle _ eq_refl) as Hle'.
      destruct (max_price_cases o p) as [[Hm Hb]|[Hm Hb]].
      * rewrite Hm in Hle', Hor. split; [|split].
        -- right. destruct Hor as [[= <-]|(od' & Hod' & H')].
           ++ exists od. split; [apply list_elem_of_here|congruence].
           ++ exists od'. split; [by apply list_elem_of_further|done].
        -- intros b0 Hb0. specialize (Hb _ Hb0). lra.
        -- intros od' p' [->|Hod']%elem_of_cons Hp'.
           ++ assert (p' = p) as -> by congruence. lra.
           ++ by eapply Hall.
      * split; [|split].
        -- destruct Hor as [[= <-]|(od' & Hod' & H')]; [by left|].
           right. exists od'. split; [by apply list_elem_of_further|done].
        -- intros b0 Hb0. assert (b0 = max_price o p) as -> by congruence.
           lra.
        -- intros od' p' [->|Hod']%elem_of_cons Hp'.
           ++ assert (p' = p) as -> by congruence. lra.
           ++ by eapply Hall.
    + split; [|split].
      * destruct Hor as [?|(od' & Hod' & H')]; [by left|].
        right. exists od'. split; [by apply list_elem_of_further|done].
      * done.
      * intros od' p' [->|Hod']%elem_of_cons Hp'; [congruence|].
        by eapply Hall.
Qed.

Lemma best_price_max (ods : list (gmap string Q)) (n : string) (b : Q) :
  best_price ods n = Some b →
  (∃ od, od ∈ ods ∧ od !! n = Some b)
  ∧ (∀ od p, od ∈ ods → od !! n = Some p → p <= b).
Proof.
  intros (Hor & _ & Hall)%best_price_acc_max. split; [|done].
  by destruct Hor as [?|?].
Qed.

(** ** Quote sets and positive prices *)

Lemma outcomes_dict_acc_lookup (os : list Outcome) (d0 : gmap string Q)
    (n : string) (p : Q) :
  foldl (λ d outcome, <[ name outcome := price outcome ]> d) d0 os !! n
  = Some p →
  d0 !! n = Some p ∨ ∃ o, o ∈ os ∧ name o = n ∧ price o = p.
Proof.
  revert d0. induction os as [|o os IH]; intros d0; cbn [foldl]; [by left|].
  intros [H|(o' & Ho' & Hn & Hp)]%IH.
  - rewrite lookup_insert in H. destruct (decide (name o = n)) as [Heq|Hne].
    + right. exists o. injection H as <-.
      split; [apply list_elem_of_here|done].
    + by left.
  - right. exists o'. split; [by apply list_elem_of_further|done].
Qed.

Lemma outcomes_dict_acc_is_Some (os : list Outcome) (d0 : gmap string Q)
    (n : string) :
  is_Some (d0 !! n) ∨ n ∈ name <$> os →
  is_Some (foldl (λ d outcome, <[ name outcome := price outcome ]> d) d0 os
             !! n).
Proof.
  revert d0. induction os as [|o os IH]; intros d0; cbn [foldl].
  - intros [H|H]; [done|]. by apply not_elem_of_nil in H.
  - intros H. apply IH. rewrite lookup_insert.
    destruct (decide (name o = n)) as [Heq|Hne]; [by left|].
    destruct H as [H|H]; [by left|]. right.
    rewrite fmap_cons in H. apply elem_of_cons in H as [H|H]; [congruence|done].
Qed.

Lemma outcomes_dict_of_lookup (os : list Outcome) (n : string) (p : Q) :
  outcomes_dict_of os !! n = Some p → ∃ o, o ∈ os ∧ name o = n ∧ price o = p.
Proof.
  intros [H|H]%outcomes_dict_acc_lookup; [|done].
  by rewrite lookup_empty in H.
Qed.

Lemma outcomes_dict_of_is_Some (os : list Outcome) (o : Outcome) :
  o ∈ os → is_Some (outcomes_dict_of os !! name o).
Proof.
  intros Ho. apply outcomes_dict_acc_is_Some. right.
  apply list_elem_of_fmap. by exists o.
Qed.

Lemma positive_quote_dict (bms : list Bookmaker) (b : Bookmaker) (n : string)
    (p : Q) :
  Forall (Forall (λ o, 0 < price o)) (quote_set <$> bms) →
  b ∈ bms → outcomes_dict_of (quote_set b) !! n = Some p → 0 < p.
Proof.
  intros Hpos Hb (o & Ho & _ & <-)%outcomes_dict_of_lookup.
  rewrite Forall_fmap, Forall_forall in Hpos. specialize (Hpos b Hb).
  simpl in Hpos. rewrite Forall_forall in Hpos. by apply Hpos.
Qed.

Lemma py_sum_ge_elem (l : list Q) (x : Q) :
  Forall (λ y, 0 <= y) l → x ∈ l → x <= py_sum l.
Proof.
  induction 1 as [|y l Hy Hl IH].
  - intros H. by apply not_elem_of_nil in H.
  - rewrite py_sum_cons. intros [->|Hx]%elem_of_cons.
    + pose proof (py_sum_nonneg l Hl). lra.
    + specialize (IH Hx). lra.
Qed.

Lemma implied_nonneg (od : gmap string Q) (n : string) :
  (∀ k p, od !! k = Some p → 0 < p) → 0 <= implied od n.
Proof.
  intros Hpos. unfold implied. destruct (od !! n) as [p|] eqn:Hp; [|lra].
  apply Qlt_le_weak, Qlt_shift_div_l; [by eapply Hpos|lra].
Qed.

(** With positive prices, a bookmaker that quotes some outcome is usable. *)
Lemma positive_usable (names : list string) (od : gmap string Q) (n : string) :
  NoDup names → n ∈ names → is_Some (od !! n) →
  (∀ k p, od !! k = Some p → 0 < p) →
  0 < total_implied_of names od ∧ usable names od = true.
Proof.
  intros Hnd Hn [p Hp] Hpos.
  assert (Ht : 0 < total_implied_of names od).
  { unfold total_implied_of. rewrite py_sum_dict_of by done.
    assert (0 < implied od n).
    { unfold implied. rewrite Hp. apply Qlt_shift_div_l; [by eapply Hpos|lra]. }
    assert (implied od n <= py_sum (implied od <$> names)).
    { apply py_sum_ge_elem.
      - apply Forall_fmap, Forall_forall. intros k _. by apply implied_nonneg.
      - apply list_elem_of_fmap. by exists n. }
    lra. }
  split; [done|]. unfold usable. rewrite Qeq_bool_false; [done|].
  intros Heq. rewrite Heq in Ht. lra.
Qed.

(** With positive prices the de-vigged probabilities are not negative. *)
Lemma positive_vig_free_nonneg (names : list string) (od : gmap string Q)
    (n : string) :
  NoDup names → (∀ k p, od !! k = Some p → 0 < p) →
  usable names od = true → n ∈ names →
  0 <= vig_free (row names od) !!! n.
Proof.
  intros Hnd Hpos Hus Hn. unfold row. cbn [vig_free].
  rewrite !lookup_total_dict_of by done.
  assert (0 <= total_implied_of names od) as Hge.
  { unfold total_implied_of. rewrite py_sum_dict_of by done.
    apply py_sum_nonneg, Forall_fmap, Forall_forall.
    intros k _. by apply implied_nonneg. }
  assert (¬ total_implied_of names od == 0) as Hne.
  { unfold usable in Hus. apply negb_true_iff in Hus.
    intros Heq. apply Qeq_bool_iff in Heq. congruence. }
  pose proof (implied_nonneg od n Hpos) as Hi.
  apply Qle_shift_div_l; lra.
Qed.

Section Coverage.

Variable set_to_list : gset string → list string.
Hypothesis set_to_list_NoDup : ∀ s, NoDup (set_to_list s).
Hypothesis set_to_list_elem : ∀ s x, x ∈ set_to_list s ↔ x ∈ s.

(** With positive prices every outcome name gets a best price. *)
Lemma positive_all_priced (game : Game) (bms : list Bookmaker)
    (names : list string) (best : gmap string Q) (data : list BmData) :
  positive_prices game →
  outcome_universe set_to_list game = Ok (bms, names) →
  scan names bms = Ok (best, data) →
  ∀ n, n ∈ names → ∃ b, best !! n = Some b ∧ 0 < b.
Proof.
  intros Hpos Hu Hscan n Hn.
  pose proof (outcome_universe_names _ set_to_list_NoDup set_to_list_elem
                _ _ _ Hu) as (Hnd & Hnames & _).
  apply outcome_universe_Ok in Hu as (Hbms & _ & _ & _ & _).
  unfold positive_prices, quote_sets, OutcomeUniverse, game_bookmakers in *.
  rewrite Hbms in *. cbn [default from_option id] in *.
  apply (scan_Ok _ _ _ _ Hnd) in Hscan as (_ & _ & Hbest & _).
  rewrite (Hbest n Hn).
  assert (Hall : ∀ od k p, od ∈ usable_dicts names bms →
                           od !! k = Some p → 0 < p).
  { intros od k p Hod Hk.
    apply list_elem_of_In, filter_In in Hod as [Hod _].
    apply list_elem_of_In, list_elem_of_fmap in Hod as (b & -> & Hb).
    by eapply positive_quote_dict. }
  assert (Hsome : is_Some (best_price (usable_dicts names bms) n)).
  { apply best_price_is_Some.
    apply Hnames, elem_of_names_of in Hn as (b & o & Hb & Ho & <-).
    exists (outcomes_dict_of (quote_set b)).
    pose proof (outcomes_dict_of_is_Some _ _ Ho) as Hs. split; [|done].
    apply list_elem_of_In, filter_In. split.
    - apply list_elem_of_In, list_elem_of_fmap. by exists b.
    - eapply positive_usable; [done| |exact Hs|].
      + apply Hnames, elem_of_names_of. by exists b, o.
      + intros k p Hk. by eapply positive_quote_dict. }
  destruct Hsome as [b0 Hb0]. exists b0. split; [done|].
  apply best_price_max in Hb0 as ((od & Hod & Hp) & _). by eapply Hall.
Qed.

(** With positive prices, "strictly positive" and "nonzero" select the same
    de-vigged probabilities. *)
Lemma positive_fallback_nonzero (game : Game) (bms : list Bookmaker)
    (names : list string) (best : gmap string Q) (data : list BmData) :
  positive_prices game →
  outcome_universe set_to_list game = Ok (bms, names) →
  scan names bms = Ok (best, data) →
  ∀ n, n ∈ names → fallback_candidates data n = nonzero_candidates data n.
Proof.
  intros Hpos Hu Hscan n Hn.
  pose proof (outcome_universe_names _ set_to_list_NoDup set_to_list_elem
                _ _ _ Hu) as (Hnd & _ & _).
  apply outcome_universe_Ok in Hu as (Hbms & _ & _ & _ & _).
  unfold positive_prices, quote_sets, game_bookmakers in Hpos.
  rewrite Hbms in Hpos. cbn [default from_option id] in Hpos.
  apply (scan_Ok _ _ _ _ Hnd) in Hscan as (-> & _ & _ & _).
  unfold fallback_candidates, nonzero_candidates. f_equal.
  apply filter_ext_in. intros bm Hbm.
  apply list_elem_of_In, list_elem_of_fmap in Hbm as (od & -> & Hod).
  apply list_elem_of_In, filter_In in Hod as [Hod Hus].
  apply list_elem_of_In, list_elem_of_fmap in Hod as (b & -> & Hb).
  assert (0 <= vig_free (row names (outcomes_dict_of (quote_set b))) !!! n)
    as Hge.
  { apply positive_vig_free_nonneg; try done.
    intros k p Hk. by eapply positive_quote_dict. }
  destruct (Qltb 0 _) eqn:Hlt.
  - apply Qltb_lt in Hlt. symmetry. apply negb_true_iff, Qeq_bool_false.
    intros Heq. rewrite Heq in Hlt. lra.
  - apply Qltb_ge in Hlt. symmetry. apply negb_false_iff, Qeq_bool_iff. lra.
Qed.

End Coverage.

(** ** Lines 139-160: the selector *)

Section Selector.

Variable rnd : Q → Q.

Lemma select_step_eq (fair best : gmap string Q) (st : option string * Q * Q)
    (n : string) :
  select_step rnd fair best st n
  = match best !! n with
    | None => st
    | Some b => if Qltb st.2 (roi rnd fair n b) then (Some n, b, roi rnd fair n b)
                else st
    end.
Proof. by destruct st as [[pick odds] r]. Qed.

(** The state of the loop after the names [l]: either nothing was selected
    and no priced outcome has an expected ROI above -1, or the first outcome
    of maximal expected ROI is selected. *)
Lemma select_loop_spec (l : list string) (fair best : gmap string Q) :
  (select_loop rnd l fair best = (None, 0, -1)
   ∧ ∀ n b, n ∈ l → best !! n = Some b → roi rnd fair n b <= -1)
  ∨ (∃ n b, select_loop rnd l fair best = (Some n, b, roi rnd fair n b)
            ∧ -1 < roi rnd fair n b
            ∧ first_max rnd l fair best n b).
Proof.
  unfold select_loop, first_max.
  induction l as [|x l IH] using rev_ind.
  - left. split; [done|]. intros n b Hn. by apply not_elem_of_nil in Hn.
  - rewrite foldl_app. cbn [foldl]. rewrite select_step_eq.
    destruct IH as [[-> Hall]|(n & b & -> & Hgt & Hb & l1 & l2 & Hl & H1 & H2)].
    + destruct (best !! x) as [bx|] eqn:Hx.
      * cbn [snd]. destruct (Qltb (-1) (roi rnd fair x bx)) eqn:Hlt.
        -- right. exists x, bx. apply Qltb_lt in Hlt.
           split; [done|]. split; [done|]. split; [done|].
           exists l, []. split; [done|]. split.
           ++ intros n' b' Hn' Hb'. specialize (Hall _ _ Hn' Hb'). lra.
           ++ intros n' b' Hn'. by apply not_elem_of_nil in Hn'.
        -- left. split; [done|]. apply Qltb_ge in Hlt.
           intros n b [Hn|Hn]%elem_of_app Hb; [by eapply Hall|].
           apply list_elem_of_singleton in Hn as ->.
           assert (b = bx) as -> by congruence. done.
      * left. split; [done|].
        intros n b [Hn|Hn]%elem_of_app Hb; [by eapply Hall|].
        apply list_elem_of_singleton in Hn as ->. congruence.
    + destruct (best !! x) as [bx|] eqn:Hx.
      * cbn [snd]. destruct (Qltb (roi rnd fair n b) (roi rnd fair x bx)) eqn:Hlt.
        -- right. exists x, bx. apply Qltb_lt in Hlt.
           split; [done|]. split; [lra|]. split; [done|].
           exists l, []. split; [done|]. split.
           ++ intros n' b' Hn' Hb'. rewrite Hl in Hn'.
              apply elem_of_app in Hn' as [Hn'|Hn'].
              ** specialize (H1 _ _ Hn' Hb'). lra.
              ** apply elem_of_cons in Hn' as [->|Hn'].
                 --- assert (b' = b) as -> by congruence. done.
                 --- specialize (H2 _ _ Hn' Hb'). lra.
           ++ intros n' b' Hn'. by apply not_elem_of_nil in Hn'.
        -- right. exists n, b. apply Qltb_ge in Hlt.
           split; [done|]. split; [done|]. split; [done|].
           exists l1, (l2 ++ [x]). split.
           { rewrite Hl. by rewrite <- app_assoc. }
           split; [done|].
           intros n' b' [Hn'|Hn']%elem_of_app Hb'; [by eapply H2|].
           apply list_elem_of_singleton in Hn' as ->.
           assert (b' = bx) as -> by congruence. done.
      * right. exists n, b. split; [done|]. split; [done|]. split; [done|].
        exists l1, (l2 ++ [x]). split.
        { rewrite Hl. by rewrite <- app_assoc. }
        split; [done|].
        intros n' b' [Hn'|Hn']%elem_of_app Hb'; [by eapply H2|].
        apply list_elem_of_singleton in Hn' as ->. congruence.
Qed.

Lemma first_max_elem (names : list string) (fair best : gmap string Q)
    (n : string) (b : Q) :
  first_max rnd names fair best n b →
  n ∈ names ∧ best !! n = Some b
  ∧ ∀ n' b', n' ∈ names → best !! n' = Some b' → roi rnd fair n' b' <= roi rnd fair n b.
Proof.
  intros (Hb & l1 & l2 & -> & H1 & H2). split; [|split; [done|]].
  - apply elem_of_app. right. apply list_elem_of_here.
  - intros n' b' [Hn'|Hn']%elem_of_app Hb'.
    + apply Qlt_le_weak. by eapply H1.
    + apply elem_of_cons in Hn' as [->|Hn'].
      * assert (b' = b) as -> by congruence. lra.
      * by eapply H2.
Qed.

End Selector.

(** ** Which failures a phase can stop with *)

Lemma scan_bookmaker_Stop (names : list string)
    (st : gmap string Q * list BmData) (b : Bookmaker) (f : failure) :
  scan_bookmaker names st b = Stop f → ∃ e, f = Raised e.
Proof.
  destruct st as [best data]. unfold scan_bookmaker, first_market.
  destruct (markets b) as [|m ?]; cbn [mbind result_bind].
  - intros [= <-]. by eexists.
  - rewrite implied_loop. destruct (existsb _ names); cbn [mbind result_bind].
    + intros [= <-]. by eexists.
    + destruct (Qeq_bool _ 0); [done|]. by destruct (foldl _ _ names).
Qed.

Lemma scan_Stop (names : list string) (bms : list Bookmaker) (f : failure) :
  scan names bms = Stop f → f = NoUsableBookmaker ∨ ∃ e, f = Raised e.
Proof.
  unfold scan.
  destruct (foldlM _ _ bms) as [[best data]|f'] eqn:Hloop;
    cbn [mbind result_bind].
  - destruct (length data =? 0)%nat; [|done]. intros [= <-]. by left.
  - intros [= <-]. right. revert Hloop.
    apply (foldlM_Stop (λ f, ∃ e, f = Raised e)).
    intros st b f. apply scan_bookmaker_Stop.
Qed.

Lemma consensus_Stop (names : list string) (best : gmap string Q)
    (data : list BmData) (f : failure) :
  consensus names best data = Stop f → f = NoConsensus.
Proof.
  rewrite consensus_eq. destruct (existsb _ names); [|done].
  by intros [= <-].
Qed.

Lemma select_Stop (rnd : Q → Q) (names : list string)
    (fair best : gmap string Q) (f : failure) :
  select rnd names fair best = Stop f → f = NoQualifyingPick.
Proof.
  unfold select. destruct (select_loop rnd names fair best) as [[pick odds] r].
  destruct (Qle_bool (threshold rnd) r); [done|]. by intros [= <-].
Qed.

(** ** The selector, as a specification *)

Section SelectorGate.

Variable rnd : Q → Q.

(** The double 0.05 lies above the initial [best_roi]. *)
Hypothesis threshold_above_init : -1 < threshold rnd.

Lemma select_Ok (names : list string) (fair best : gmap string Q)
    (pick : option string) (odds r : Q) :
  select rnd names fair best = Ok (pick, odds, r) →
  threshold rnd <= r
  ∧ ∃ n, pick = Some n ∧ r = roi rnd fair n odds
         ∧ first_max rnd names fair best n odds.
Proof.
  unfold select.
  destruct (select_loop_spec rnd names fair best)
    as [[-> _]|(n & b & -> & _ & Hmax)].
  - destruct (Qle_bool (threshold rnd) (-1)) eqn:E; [|done].
    apply Qle_bool_iff in E. lra.
  - destruct (Qle_bool (threshold rnd) (roi rnd fair n b)) eqn:E; [|done].
    intros [= <- <- <-]. apply Qle_bool_iff in E. split; [done|].
    by exists n.
Qed.

Lemma select_Ok_iff (names : list string) (fair best : gmap string Q) :
  (∃ res, select rnd names fair best = Ok res)
  ↔ ∃ n b, n ∈ names ∧ best !! n = Some b ∧ threshold rnd <= roi rnd fair n b.
Proof.
  split.
  - intros [[[pick odds] r] Hsel].
    apply select_Ok in Hsel as (Hr & n & _ & -> & Hmax).
    apply first_max_elem in Hmax as (Hn & Hb & _). by exists n, odds.
  - intros (n & b & Hn & Hb & Hle). unfold select.
    destruct (select_loop_spec rnd names fair best)
      as [[_ Hall]|(n' & b' & -> & _ & Hmax)].
    + specialize (Hall _ _ Hn Hb). lra.
    + apply first_max_elem in Hmax as (_ & _ & Hmax).
      specialize (Hmax _ _ Hn Hb).
      assert (Qle_bool (threshold rnd) (roi rnd fair n' b') = true) as ->;
        [|by eexists].
      apply Qle_bool_iff. lra.
Qed.

Lemma select_Stop_iff (names : list string) (fair best : gmap string Q) :
  select rnd names fair best = Stop NoQualifyingPick
  ↔ ∀ n b, n ∈ names → best !! n = Some b → roi rnd fair n b < threshold rnd.
Proof.
  split.
  - intros Hstop n b Hn Hb. apply Qnot_le_lt. intros Hle.
    assert (∃ res, select rnd names fair best = Ok res) as [res Hres].
    { apply select_Ok_iff. by exists n, b. }
    congruence.
  - intros Hall. destruct (select rnd names fair best) as [res|f] eqn:Hsel.
    + assert (∃ n b, n ∈ names ∧ best !! n = Some b
                     ∧ threshold rnd <= roi rnd fair n b)
        as (n & b & Hn & Hb & Hle).
      { apply select_Ok_iff. by exists res. }
      specialize (Hall _ _ Hn Hb). lra.
    + by apply select_Stop in Hsel as ->.
Qed.

End SelectorGate.



(** C6 fails as the specification words it, for every match on which
    estimation succeeds: in [all_negative] estimation succeeds with the fair
    probabilities 1/2 and 1/2 and the best prices -2 and -2, both outcomes
    have the expected ROI -2, which is not above the initial [best_roi = -1],
    and the loop selects no outcome.  All the numbers involved are doubles
    and no operation rounds, so the doubles of Python give the same. *)
Lemma nothing_selected :
  ∃ names fair best,
    estimate elements all_negative = Ok (names, fair, best)
    ∧ (∀ n, n ∈ names →
         best !! n = Some (-2) ∧ fair !!! n == 1 # 2
         ∧ roi no_rounding fair n (-2) == -2
         ∧ roi binary64 fair n (-2) == -2)
    ∧ select_loop no_rounding names fair best = (None, 0, -1)
    ∧ select_loop binary64 names fair best = (None, 0, -1).
Proof.
  eexists _, _, _. split; [vm_compute; reflexivity|]. split.
  - intros n Hn. apply list_elem_of_In in Hn. vm_compute in Hn.
    destruct Hn as [<-|[<-|[]]]; repeat split; vm_compute; reflexivity.
  - split; vm_compute; reflexivity.
Qed.

Section Estimator.

Variable rnd : Q → Q.
Variable set_to_list : gset string → list string.
Hypothesis set_to_list_NoDup : ∀ s, NoDup (set_to_list s).
Hypothesis set_to_list_elem : ∀ s x, x ∈ set_to_list s ↔ x ∈ s.

Lemma outcome_universe_Stop (game : Game) (f : failure) :
  outcome_universe set_to_list game = Stop f →
  f = InsufficientOutcomes ∨ f = Raised IndexError.
Proof.
  unfold outcome_universe.
  destruct (bookmakers game) as [[|b bms]|]; try (intros [= <-]; by left).
  rewrite add_names_loop. destruct (forallb has_market (b :: bms));
    cbn [mbind result_bind].
  - destruct (size _ <? 2)%nat; [|done]. intros [= <-]. by left.
  - intros [= <-]. by right.
Qed.

Lemma estimate_Ok (game : Game) (names : list string)
    (fair best : gmap string Q) :
  estimate set_to_list game = Ok (names, fair, best) →
  ∃ bms data cp,
    outcome_universe set_to_list game = Ok (bms, names)
    ∧ scan names bms = Ok (best, data)
    ∧ consensus names best data = Ok cp
    ∧ fair_probs_of names cp = Ok fair.
Proof.
  unfold estimate.
  destruct (outcome_universe set_to_list game) as [[bms names']|f] eqn:Hu;
    [|done].
  cbn [mbind result_bind].
  destruct (scan names' bms) as [[best' data]|f] eqn:Hs; [|done].
  cbn [mbind result_bind].
  destruct (consensus names' best' data) as [cp|f] eqn:Hc; [|done].
  cbn [mbind result_bind].
  destruct (fair_probs_of names' cp) as [fair'|f] eqn:Hf; [|done].
  cbn [mbind result_bind]. intros [= <- <- <-].
  by exists bms, data, cp.
Qed.

(** The consensus phase, once complete, is followed by the fair
    probabilities: its sum is positive. *)
Lemma consensus_total_pos (game : Game) (bms : list Bookmaker)
    (names : list string) (best : gmap string Q) (data : list BmData)
    (cp : gmap string Q) :
  outcome_universe set_to_list game = Ok (bms, names) →
  consensus names best data = Ok cp →
  (∀ n, n ∈ names → 0 < cp !!! n)
  ∧ 0 < py_sum (dict_values cp)
  ∧ fair_probs_of names cp
    = Ok (dict_of names (λ n, (cp !!! n) / py_sum (dict_values cp))).
Proof.
  intros Hu Hc.
  pose proof (outcome_universe_names _ set_to_list_NoDup set_to_list_elem
                _ _ _ Hu) as (Hnd & _ & Hlen).
  apply consensus_pos in Hc as [Hpos Htot]. split; [done|].
  assert (0 < py_sum (dict_values cp)) as Ht.
  { apply Htot; [done|]. intros ->. simpl in Hlen. lia. }
  split; [done|]. rewrite fair_probs_of_eq, Qeq_bool_false; [done|].
  intros Heq. rewrite Heq in Ht. lra.
Qed.

(** C9 (the zero-consensus return is dead).  Whenever the consensus loop
    completes for all outcomes, every consensus probability is strictly
    positive (a median of a nonempty list of strictly positive de-vigged
    probabilities), so is their sum, and the test of line 132 fails: the
    body of [naive_edge] never stops with [ZeroConsensus].  Positive prices
    are not needed for this: the tests of lines 110 and 114 keep
    non-positive probabilities out of every candidate list. *)
Theorem zero_consensus_unreachable (game : Game) :
  (∀ bms names best data cp,
     outcome_universe set_to_list game = Ok (bms, names) →
     scan names bms = Ok (best, data) →
     consensus names best data = Ok cp →
     (∀ n, n ∈ names → 0 < cp !!! n)
     ∧ 0 < py_sum (dict_values cp)
     ∧ ∃ fair, fair_probs_of names cp = Ok fair)
  ∧ naive_edge_run rnd set_to_list game ≠ Stop ZeroConsensus.
Proof.
  split.
  - intros bms names best data cp Hu _ Hc.
    destruct (consensus_total_pos _ _ _ _ _ _ Hu Hc) as (H1 & H2 & H3).
    split; [done|]. split; [done|]. by eexists.
  - unfold naive_edge_run, estimate.
    destruct (outcome_universe set_to_list game) as [[bms names]|f] eqn:Hu;
      cbn [mbind result_bind].
    2: { apply outcome_universe_Stop in Hu as [->| ->]; done. }
    destruct (scan names bms) as [[best data]|f] eqn:Hs;
      cbn [mbind result_bind].
    2: { apply scan_Stop in Hs as [->|[e ->]]; done. }
    destruct (consensus names best data) as [cp|f] eqn:Hc;
      cbn [mbind result_bind].
    2: { apply consensus_Stop in Hc as ->. done. }
    destruct (consensus_total_pos _ _ _ _ _ _ Hu Hc) as (_ & _ & ->).
    cbn [mbind result_bind].
    destruct (select rnd names _ best) as [r|f] eqn:Hsel; [done|].
    apply select_Stop in Hsel as ->. done.
Qed.

Lemma fair_probs_spec (game : Game) (names : list string)
    (fair best : gmap string Q) :
  estimate set_to_list game = Ok (names, fair, best) →
  NoDup names
  ∧ (∀ n, n ∈ names ↔ n ∈ OutcomeUniverse game)
  ∧ (∀ n, is_Some (fair !! n) ↔ n ∈ names)
  ∧ (∀ n, n ∈ names → 0 < fair !!! n)
  ∧ py_sum (dict_values fair) == 1.
Proof.
  intros (bms & data & cp & Hu & Hs & Hc & Hf)%estimate_Ok.
  pose proof (outcome_universe_names _ set_to_list_NoDup set_to_list_elem
                _ _ _ Hu) as (Hnd & Hnames & _).
  destruct (consensus_total_pos _ _ _ _ _ _ Hu Hc) as (Hpos & Ht & Hfair).
  rewrite Hfair in Hf. injection Hf as <-.
  split; [done|]. split; [done|]. split; [|split].
  - intros n. apply dom_dict_of.
  - intros n Hn. rewrite lookup_total_dict_of by done.
    apply Qlt_shift_div_l; [done|]. specialize (Hpos n Hn). lra.
  - rewrite consensus_eq in Hc. destruct (existsb _ names); [done|].
    injection Hc as <-. apply normalise_sum; [done|].
    intros Heq. rewrite Heq in Ht. lra.
Qed.

(** C4 (outcome coverage).  When estimation succeeds, the fair
    probabilities have an entry for every name of the OutcomeUniverse (and
    for no other name), and the entries sum to 1. *)
Theorem fair_probs_cover_and_sum_to_one (game : Game) (names : list string)
    (fair best : gmap string Q) :
  estimate set_to_list game = Ok (names, fair, best) →
  (∀ n, n ∈ OutcomeUniverse game → is_Some (fair !! n))
  ∧ (∀ n, is_Some (fair !! n) → n ∈ OutcomeUniverse game)
  ∧ py_sum (dict_values fair) == 1.
Proof.
  intros (_ & Hnames & Hdom & _ & Hsum)%fair_probs_spec.
  split; [|split; [|done]].
  - intros n Hn. by apply Hdom, Hnames.
  - intros n Hn. by apply Hnames, Hdom.
Qed.

Lemma naive_edge_run_select (game : Game) (names : list string)
    (fair best : gmap string Q) :
  estimate set_to_list game = Ok (names, fair, best) →
  naive_edge_run rnd set_to_list game = select rnd names fair best.
Proof. unfold naive_edge_run. by intros ->. Qed.

(** C10 (every outcome is priced).  With strictly positive prices, when
    estimation reaches the selection phase [best_odds_per_outcome] has an
    entry for every name of the OutcomeUniverse, so the [continue] of line
    145 is never taken: every step of the selection loop compares the
    expected ROI of its outcome. *)
Theorem all_outcomes_priced (game : Game) (names : list string)
    (fair best : gmap string Q) :
  positive_prices game →
  estimate set_to_list game = Ok (names, fair, best) →
  (∀ n, n ∈ OutcomeUniverse game → is_Some (best !! n))
  ∧ (∀ n, n ∈ names →
       ∃ b, best !! n = Some b
            ∧ ∀ st, select_step rnd fair best st n
                    = if Qltb st.2 (roi rnd fair n b)
                      then (Some n, b, roi rnd fair n b) else st).
Proof.
  intros Hpos Hest.
  pose proof (fair_probs_spec _ _ _ _ Hest) as (_ & Hnames & _).
  apply estimate_Ok in Hest as (bms & data & cp & Hu & Hs & _).
  pose proof (positive_all_priced _ set_to_list_NoDup set_to_list_elem
                _ _ _ _ _ Hpos Hu Hs) as Hpriced.
  split.
  - intros n Hn. apply Hnames in Hn.
    destruct (Hpriced n Hn) as (b & -> & _). done.
  - intros n Hn. destruct (Hpriced n Hn) as (b & Hb & _).
    exists b. split; [done|]. intros st.
    by rewrite select_step_eq, Hb.
Qed.

(** In exact arithmetic and with the prices of the data model (strictly
    positive), some priced outcome has an expected ROI above the initial
    [best_roi = -1], so the selection loop selects an outcome. *)
Lemma positive_prices_select (game : Game) (names : list string)
    (fair best : gmap string Q) :
  positive_prices game →
  estimate set_to_list game = Ok (names, fair, best) →
  ∃ n b, n ∈ names ∧ best !! n = Some b ∧ -1 < roi no_rounding fair n b.
Proof.
  intros Hpos Hest.
  pose proof (fair_probs_spec _ _ _ _ Hest) as (_ & _ & _ & Hfair & _).
  apply estimate_Ok in Hest as (bms & data & cp & Hu & Hs & _).
  pose proof (positive_all_priced _ set_to_list_NoDup set_to_list_elem
                _ _ _ _ _ Hpos Hu Hs) as Hpriced.
  pose proof (outcome_universe_names _ set_to_list_NoDup set_to_list_elem
                _ _ _ Hu) as (_ & _ & Hlen).
  destruct names as [|n0 names]; [simpl in Hlen; lia|].
  assert (Hn0 : n0 ∈ n0 :: names) by apply list_elem_of_here.
  destruct (Hpriced n0 Hn0) as (b0 & Hb0 & Hb0pos).
  specialize (Hfair _ Hn0).
  exists n0, b0. split; [done|]. split; [done|].
  unfold roi, no_rounding. nra.
Qed.

(** C1 (consensus candidates), as the code has it.  Once the scan has
    produced the usable bookmakers and the best prices, the candidate list
    of an outcome holds the strictly positive de-vigged probabilities of
    the usable bookmakers that do not quote the outcome at its best price;
    if there is none, the strictly positive de-vigged probabilities of all
    usable bookmakers (with positive prices these are the nonzero ones); and
    if there is none either, the game fails with [NoConsensus]. *)
Theorem consensus_candidates (game : Game) (bms : list Bookmaker)
    (names : list string) (best : gmap string Q) (data : list BmData) :
  outcome_universe set_to_list game = Ok (bms, names) →
  scan names bms = Ok (best, data) →
  data = row names <$> usable_dicts names bms
  ∧ (∀ n, n ∈ names → best !! n = best_price (usable_dicts names bms) n)
  ∧ (∀ n, n ∈ names →
       candidates best data n
       = match primary_candidates best data n with
         | [] => match fallback_candidates data n with
                 | [] => Stop NoConsensus
                 | l => Ok l
                 end
         | l => Ok l
         end)
  ∧ (∀ n, n ∈ names →
       primary_candidates best data n = [] →
       fallback_candidates data n = [] →
       naive_edge_run rnd set_to_list game = Stop NoConsensus
       ∧ naive_edge rnd set_to_list game = None)
  ∧ (positive_prices game →
     ∀ n, n ∈ names → fallback_candidates data n = nonzero_candidates data n).
Proof.
  intros Hu Hs.
  pose proof (outcome_universe_names _ set_to_list_NoDup set_to_list_elem
                _ _ _ Hu) as (Hnd & _ & _).
  pose proof (scan_Ok _ _ _ _ Hnd Hs) as (Hdata & _ & Hbest & _).
  split; [done|]. split; [done|]. split; [|split].
  - intros n _. rewrite candidates_eq. unfold candidate_list.
    destruct (primary_candidates best data n); [|done].
    by destruct (fallback_candidates data n).
  - intros n Hn Hp Hf.
    assert (Hrun : naive_edge_run rnd set_to_list game = Stop NoConsensus).
    { unfold naive_edge_run, estimate. rewrite Hu. cbn [mbind result_bind].
      rewrite Hs. cbn [mbind result_bind]. rewrite consensus_eq.
      assert (existsb (λ n, is_nil (candidate_list best data n)) names
              = true) as ->; [|done].
      apply existsb_exists. exists n. split; [by apply list_elem_of_In|].
      unfold candidate_list. by rewrite Hp, Hf. }
    split; [done|]. unfold naive_edge. by rewrite Hrun.
  - intros Hpos. by eapply positive_fallback_nonzero.
Qed.

End Estimator.

(** C1 fails in the words of the specification: in [omitting] the third
    bookmaker is usable and does not quote A, so its de-vigged probability
    for A is 0.  It does not quote A at the best price, so those words keep
    its 0 among the candidates for A; line 110 drops it, and the median of
    the candidates differs. *)
Lemma stated_candidates_differ :
  ∃ bms names best data,
    outcome_universe elements omitting = Ok (bms, names)
    ∧ scan names bms = Ok (best, data)
    ∧ "A"%string ∈ names
    ∧ stated_candidates best data "A" ≠ []
    ∧ candidates best data "A" ≠ Ok (stated_candidates best data "A")
    ∧ ¬ median (stated_candidates best data "A")
        == median (candidate_list best data "A").
Proof.
  eexists _, _, _, _.
  split; [vm_compute; reflexivity|].
  split; [vm_compute; reflexivity|].
  split; [apply list_elem_of_here|].
  split; [vm_compute; discriminate|].
  split; vm_compute; discriminate.
Qed.

(** ** Scenario A of the specification *)

Lemma two_names_order (l : list string) (a b : string) :
  a ≠ b → NoDup l → (∀ x, x ∈ l ↔ x ∈ ({[ a; b ]} : gset string)) →
  l = [a; b] ∨ l = [b; a].
Proof.
  intros Hab Hnd Hl.
  assert (Hperm : l ≡ₚ [a; b]).
  { apply NoDup_Permutation; [done| |].
    - apply NoDup_cons. split; [|apply NoDup_singleton].
      by intros ?%list_elem_of_singleton.
    - intros x. rewrite Hl. set_solver. }
  destruct l as [|x [|y [|z l]]].
  - by apply Permutation_nil_l in Hperm.
  - by apply Permutation_length in Hperm.
  - pose proof (Hl x) as Hx. pose proof (Hl y) as Hy.
    assert (x ≠ y).
    { apply NoDup_cons in Hnd as [Hx' _]. intros ->. apply Hx'.
      apply list_elem_of_here. }
    assert (x = a ∨ x = b) as [-> | ->]
      by (cut (x ∈ ({[ a; b ]} : gset string));
          [set_solver|apply Hx, list_elem_of_here]);
    assert (y = a ∨ y = b) as [-> | ->]
      by (cut (y ∈ ({[ a; b ]} : gset string));
          [set_solver|apply Hy; apply list_elem_of_further, list_elem_of_here]);
    try congruence; [by left|by right].
  - by apply Permutation_length in Hperm.
Qed.

Section ScenarioA.

Variable rnd : Q → Q.
Variable set_to_list : gset string → list string.
Hypothesis set_to_list_NoDup : ∀ s, NoDup (set_to_list s).
Hypothesis set_to_list_elem : ∀ s x, x ∈ set_to_list s ↔ x ∈ s.

(** What the estimator computes on scenario A, in either iteration order. *)
Lemma scenario_A_estimate :
  ∃ names fair best,
    estimate set_to_list scenario_A = Ok (names, fair, best)
    ∧ (names = ["A"; "B"]%string ∨ names = ["B"; "A"]%string)
    ∧ best !! "A"%string = Some 2 ∧ best !! "B"%string = Some 2
    ∧ fair !!! "A"%string == 38 # 77 ∧ fair !!! "B"%string == 39 # 77.
Proof.
  assert (Hs : foldlM add_names ∅
                 [ book [quote "A" 2; quote "B" (18 # 10)];
                   book [quote "A" (19 # 10); quote "B" 2] ]
               = Ok ({[ "A"%string; "B"%string ]} : gset string))
    by (vm_compute; reflexivity).
  unfold estimate, outcome_universe.
  cbn [scenario_A match_of bookmakers]. rewrite Hs.
  cbn [mbind result_bind].
  assert (Hsz : (size ({[ "A"%string; "B"%string ]} : gset string) <? 2)%nat
                = false) by (vm_compute; reflexivity).
  rewrite Hsz.
  destruct (two_names_order
              (set_to_list {[ "A"%string; "B"%string ]}) "A" "B")
    as [-> | ->]; [done|apply set_to_list_NoDup|apply set_to_list_elem| |].
  - eexists _, _, _. split; [vm_compute; reflexivity|].
    split; [by left|]. repeat split; vm_compute; reflexivity.
  - eexists _, _, _. split; [vm_compute; reflexivity|].
    split; [by right|]. repeat split; vm_compute; reflexivity.
Qed.

(** On results between -2 and 2 the rounding errs by at most 1e-9 (the
    doubles by at most 2.3e-16, exact arithmetic by nothing). *)
Hypothesis rnd_accurate :
  ∀ x, -2 <= x <= 2 →
       x - (1 # 1000000000) <= rnd x <= x + (1 # 1000000000).

(** The selector on the fair probabilities and best prices of scenario A. *)
Lemma scenario_A_select (names : list string) (fair best : gmap string Q) :
  names = ["A"; "B"]%string ∨ names = ["B"; "A"]%string →
  best !! "A"%string = Some 2 → best !! "B"%string = Some 2 →
  fair !!! "A"%string == 38 # 77 → fair !!! "B"%string == 39 # 77 →
  select_step rnd fair best (None, 0, -1) "A" = (Some "A"%string, 2, roi rnd fair "A" 2)
  ∧ select_step rnd fair best (None, 0, -1) "B" = (Some "B"%string, 2, roi rnd fair "B" 2)
  ∧ (- (1 # 77) - (2 # 1000000000) <= roi rnd fair "A" 2
     <= - (1 # 77) + (2 # 1000000000))
  ∧ ((1 # 77) - (2 # 1000000000) <= roi rnd fair "B" 2
     <= (1 # 77) + (2 # 1000000000))
  ∧ roi rnd fair "A" 2 < threshold rnd ∧ roi rnd fair "B" 2 < threshold rnd
  ∧ select_loop rnd names fair best = (Some "B"%string, 2, roi rnd fair "B" 2)
  ∧ select rnd names fair best = Stop NoQualifyingPick.
Proof.
  intros Hnames HbA HbB HfA HfB.
  assert (HA1 := rnd_accurate (fair !!! "A"%string * 2)).
  assert (HA2 := rnd_accurate (rnd (fair !!! "A"%string * 2) - 1)).
  assert (HB1 := rnd_accurate (fair !!! "B"%string * 2)).
  assert (HB2 := rnd_accurate (rnd (fair !!! "B"%string * 2) - 1)).
  assert (HT := rnd_accurate (5 # 100)).
  assert (HrA : - (1 # 77) - (2 # 1000000000) <= roi rnd fair "A" 2
                <= - (1 # 77) + (2 # 1000000000)).
  { unfold roi. lra. }
  assert (HrB : (1 # 77) - (2 # 1000000000) <= roi rnd fair "B" 2
                <= (1 # 77) + (2 # 1000000000)).
  { unfold roi. lra. }
  assert (Hthr : (5 # 100) - (1 # 1000000000) <= threshold rnd).
  { unfold threshold. lra. }
  assert (HstepA : ∀ st, select_step rnd fair best st "A"
                         = if Qltb st.2 (roi rnd fair "A" 2)
                           then (Some "A"%string, 2, roi rnd fair "A" 2)
                           else st).
  { intros st. by rewrite select_step_eq, HbA. }
  assert (HstepB : ∀ st, select_step rnd fair best st "B"
                         = if Qltb st.2 (roi rnd fair "B" 2)
                           then (Some "B"%string, 2, roi rnd fair "B" 2)
                           else st).
  { intros st. by rewrite select_step_eq, HbB. }
  assert (H1A : Qltb (-1) (roi rnd fair "A" 2) = true)
    by (apply Qltb_lt; lra).
  assert (H1B : Qltb (-1) (roi rnd fair "B" 2) = true)
    by (apply Qltb_lt; lra).
  assert (HAB : Qltb (roi rnd fair "A" 2) (roi rnd fair "B" 2) = true)
    by (apply Qltb_lt; lra).
  assert (HBA : Qltb (roi rnd fair "B" 2) (roi rnd fair "A" 2) = false)
    by (apply Qltb_ge; lra).
  assert (Hloop : select_loop rnd names fair best
                  = (Some "B"%string, 2, roi rnd fair "B" 2)).
  { unfold select_loop. destruct Hnames as [-> | ->]; cbn [foldl].
    - rewrite HstepA. cbn [snd]. rewrite H1A. rewrite HstepB. cbn [snd].
      by rewrite HAB.
    - rewrite HstepB. cbn [snd]. rewrite H1B. rewrite HstepA. cbn [snd].
      by rewrite HBA. }
  split; [by rewrite HstepA; cbn [snd]; rewrite H1A|].
  split; [by rewrite HstepB; cbn [snd]; rewrite H1B|].
  split; [done|]. split; [done|].
  split; [lra|]. split; [lra|]. split; [done|].
  unfold select. rewrite Hloop.
  destruct (Qle_bool (threshold rnd) (roi rnd fair "B" 2)) eqn:E; [|done].
  apply Qle_bool_iff in E. lra.
Qed.

(** C2 (scenario A).  BookmakerX quotes A=2.00, B=1.80 and BookmakerY
    quotes A=1.90, B=2.00.  Whatever the iteration order of the outcome
    names, the estimator yields the best prices 2.00 for A and for B and the
    fair probabilities 38/77 (0.4935...) for A and 39/77 (0.5065...) for B.
    On them the selection loop computes the expected ROI of A, within 2e-9
    of -1/77 (-0.0130...), and of B, within 2e-9 of 1/77 (0.0130...), and
    ends on B; both are below 0.05, so the selector stops with no qualifying
    pick and [naive_edge] returns the no-pick result. *)
Theorem scenario_A_no_pick :
  ∃ names fair best,
    estimate set_to_list scenario_A = Ok (names, fair, best)
    ∧ best !! "A"%string = Some 2 ∧ best !! "B"%string = Some 2
    ∧ fair !!! "A"%string == 38 # 77 ∧ fair !!! "B"%string == 39 # 77
    ∧ (49345 # 100000 < fair !!! "A"%string < 49355 # 100000)
    ∧ (50645 # 100000 < fair !!! "B"%string < 50655 # 100000)
    ∧ select_step rnd fair best (None, 0, -1) "A"
      = (Some "A"%string, 2, roi rnd fair "A" 2)
    ∧ select_step rnd fair best (None, 0, -1) "B"
      = (Some "B"%string, 2, roi rnd fair "B" 2)
    ∧ (- (1 # 77) - (2 # 1000000000) <= roi rnd fair "A" 2
       <= - (1 # 77) + (2 # 1000000000))
    ∧ ((1 # 77) - (2 # 1000000000) <= roi rnd fair "B" 2
       <= (1 # 77) + (2 # 1000000000))
    ∧ (- (135 # 10000) < roi rnd fair "A" 2 < - (125 # 10000))
    ∧ (125 # 10000 < roi rnd fair "B" 2 < 135 # 10000)
    ∧ roi rnd fair "A" 2 < threshold rnd ∧ roi rnd fair "B" 2 < threshold rnd
    ∧ select_loop rnd names fair best
      = (Some "B"%string, 2, roi rnd fair "B" 2)
    ∧ naive_edge_run rnd set_to_list scenario_A = Stop NoQualifyingPick
    ∧ naive_edge rnd set_to_list scenario_A = None.
Proof.
  destruct scenario_A_estimate
    as (names & fair & best & Hest & Hnames & HbA & HbB & HfA & HfB).
  destruct (scenario_A_select names fair best Hnames HbA HbB HfA HfB)
    as (HsA & HsB & HrA & HrB & HtA & HtB & Hloop & Hsel).
  assert (Hrun : naive_edge_run rnd set_to_list scenario_A
                 = Stop NoQualifyingPick).
  { unfold naive_edge_run. rewrite Hest. exact Hsel. }
  exists names, fair, best.
  split; [done|]. split; [done|]. split; [done|].
  split; [done|]. split; [done|].
  split; [lra|]. split; [lra|].
  split; [done|]. split; [done|]. split; [done|]. split; [done|].
  split; [lra|]. split; [lra|].
  split; [done|]. split; [done|]. split; [done|]. split; [done|].
  unfold naive_edge. by rewrite Hrun.
Qed.

End ScenarioA.

Lemma scenario_A_no_pick_witness :
  ∃ names fair best r,
    estimate elements scenario_A = Ok (names, fair, best)
    ∧ select_loop no_rounding names fair best = (Some "B"%string, 2, r)
    ∧ naive_edge no_rounding elements scenario_A = None.
Proof.
  destruct (scenario_A_no_pick no_rounding elements)
    as (names & fair & best & H).
  - intros s. apply NoDup_elements.
  - intros s x. apply elem_of_elements.
  - intros x _. unfold no_rounding. split; lra.
  - exists names, fair, best, (roi no_rounding fair "B" 2).
    split; [apply H|]. split; apply H.
Defined.

(** ** The ranking: a stable descending sort, truncated *)

#[local] Instance edge_ge_trans : Transitive edge_ge.
Proof. unfold edge_ge. intros x y z Hxy Hyz. lra. Qed.

Lemma insert_desc_perm (x : ValuePick) (l : list ValuePick) :
  insert_desc x l ≡ₚ x :: l.
Proof.
  induction l as [|y l IH]; simpl; [done|].
  destruct (Qltb (edge_of x) (edge_of y)); [|done].
  rewrite IH. apply perm_swap.
Qed.

Lemma sort_desc_perm (l : list ValuePick) : sort_desc l ≡ₚ l.
Proof.
  unfold sort_desc. induction l as [|x l IH]; simpl; [done|].
  by rewrite insert_desc_perm, IH.
Qed.

Lemma insert_desc_HdRel (x y : ValuePick) (l : list ValuePick) :
  edge_ge y x → HdRel edge_ge y l → HdRel edge_ge y (insert_desc x l).
Proof.
  intros Hyx Hl. destruct l as [|z l]; simpl; [by constructor|].
  destruct (Qltb (edge_of x) (edge_of z)); constructor; [|done].
  by inversion Hl.
Qed.

Lemma insert_desc_Sorted (x : ValuePick) (l : list ValuePick) :
  Sorted edge_ge l → Sorted edge_ge (insert_desc x l).
Proof.
  induction 1 as [|y l Hl IH Hhd]; simpl; [by repeat constructor|].
  destruct (Qltb (edge_of x) (edge_of y)) eqn:Hlt.
  - constructor; [done|]. apply insert_desc_HdRel; [|done].
    apply Qltb_lt in Hlt. unfold edge_ge. lra.
  - constructor; [by constructor|]. constructor.
    apply Qltb_ge in Hlt. exact Hlt.
Qed.

Lemma sort_desc_Sorted (l : list ValuePick) :
  StronglySorted edge_ge (sort_desc l).
Proof.
  apply Sorted_StronglySorted; [apply _|]. unfold sort_desc.
  induction l as [|x l IH]; simpl; [constructor|].
  by apply insert_desc_Sorted.
Qed.







Section Ranking.

Variable rnd : Q → Q.
Variable set_to_list : gset string → list string.

Lemma collect_pick_eq (acc : list ValuePick) (game : Game) :
  collect_pick rnd set_to_list acc game
  = acc ++ option_list (value_pick_of rnd set_to_list game).
Proof.
  unfold collect_pick, value_pick_of.
  destruct (naive_edge rnd set_to_list game) as [[[pick odds] edge]|]; simpl.
  - done.
  - by rewrite app_nil_r.
Qed.

Lemma collect_loop_eq (games : list Game) (acc : list ValuePick) :
  foldl (collect_pick rnd set_to_list) acc games
  = acc ++ omap (value_pick_of rnd set_to_list) games.
Proof.
  revert acc. induction games as [|g games IH]; intros acc; cbn [foldl omap].
  - by rewrite app_nil_r.
  - rewrite IH, collect_pick_eq.
    change (omap (value_pick_of rnd set_to_list) (g :: games))
      with (list_omap (value_pick_of rnd set_to_list) (g :: games)).
    cbn [list_omap].
    destruct (value_pick_of rnd set_to_list g); simpl.
    + by rewrite <- app_assoc.
    + by rewrite app_nil_r.
Qed.


End Ranking.

(** ** The theorems at concrete games *)


Lemma fair_probs_cover_and_sum_to_one_witness :
  ∃ fair, (∃ names best, estimate elements scenario_B = Ok (names, fair, best))
          ∧ is_Some (fair !! "A"%string)
          ∧ py_sum (dict_values fair) == 1.
Proof.
  assert (∃ names fair best,
            estimate elements scenario_B = Ok (names, fair, best))
    as (names & fair & best & Hest)
    by (eexists _, _, _; vm_compute; reflexivity).
  destruct (fair_probs_cover_and_sum_to_one elements
              (λ s, NoDup_elements s) (λ s x, elem_of_elements s x)
              scenario_B names fair best Hest) as (Hcover & _ & Hsum).
  exists fair. split; [by exists names, best|]. split; [|exact Hsum].
  apply Hcover. vm_compute. reflexivity.
Defined.

Lemma zero_consensus_unreachable_witness :
  naive_edge_run no_rounding elements omitting ≠ Stop ZeroConsensus.
Proof.
  exact (proj2 (zero_consensus_unreachable no_rounding elements
                  (λ s, NoDup_elements s) (λ s x, elem_of_elements s x)
                  omitting)).
Defined.

Lemma scenario_B_positive : positive_prices scenario_B.
Proof. repeat constructor. Qed.

Lemma all_outcomes_priced_witness :
  ∃ best, (∃ names fair, estimate elements scenario_B = Ok (names, fair, best))
          ∧ is_Some (best !! "A"%string) ∧ is_Some (best !! "B"%string).
Proof.
  assert (∃ names fair best,
            estimate elements scenario_B = Ok (names, fair, best))
    as (names & fair & best & Hest)
    by (eexists _, _, _; vm_compute; reflexivity).
  destruct (all_outcomes_priced no_rounding elements
              (λ s, NoDup_elements s) (λ s x, elem_of_elements s x)
              scenario_B names fair best scenario_B_positive Hest)
    as (Hpriced & _).
  exists best. split; [by exists names, fair|].
  split; apply Hpriced; vm_compute; reflexivity.
Defined.


Lemma consensus_candidates_witness :
  ∃ bms names best data,
    outcome_universe elements omitting = Ok (bms, names)
    ∧ scan names bms = Ok (best, data)
    ∧ candidates best data "A" = Ok (primary_candidates best data "A")
    ∧ Forall (λ x, 0 < x) (primary_candidates best data "A").
Proof.
  assert (∃ bms names, outcome_universe elements omitting = Ok (bms, names)
                       ∧ "A"%string ∈ names)
    as (bms & names & Hu & HA).
  { eexists _, _. split; [vm_compute; reflexivity|apply list_elem_of_here]. }
  assert (∃ best data, scan names bms = Ok (best, data))
    as (best & data & Hs).
  { vm_compute in Hu. injection Hu as <- <-.
    eexists _, _. vm_compute. reflexivity. }
  destruct (consensus_candidates no_rounding elements
              (λ s, NoDup_elements s) (λ s x, elem_of_elements s x)
              omitting bms names best data Hu Hs) as (_ & _ & Hcand & _ & _).
  exists bms, names, best, data. split; [exact Hu|]. split; [exact Hs|].
  assert (Hne : primary_candidates best data "A" ≠ []).
  { vm_compute in Hu. injection Hu as <- <-.
    vm_compute in Hs. injection Hs as <- <-. vm_compute. discriminate. }
  split.
  - rewrite (Hcand "A"%string HA).
    by destruct (primary_candidates best data "A").
  - pose proof (candidate_list_pos best data "A") as Hpos.
    unfold candidate_list in Hpos.
    by destruct (primary_candidates best data "A").
Defined.

(** Scenario B of the specification: A is underpriced by the consensus and is
    picked at its best price 3.00, whatever the iteration order decides. *)
Example scenario_B_pick :
  ∃ r, naive_edge no_rounding elements scenario_B = Some (Some "A"%string, 3, r)
       ∧ r == 529 # 1187 ∧ threshold no_rounding <= r.
Proof.
  eexists. split; [vm_compute; reflexivity|]. split; vm_compute; done.
Qed.

(** In [omitting] the pick is B at 2.00 with an expected ROI of 0.2. *)
Example omitting_pick :
  ∃ r, naive_edge no_rounding elements omitting = Some (Some "B"%string, 2, r)
       ∧ r == 1 # 5.
Proof. eexists. split; vm_compute; reflexivity. Qed.

(** The [NoConsensus] return is live only outside the data model: with the
    quotes A=-2, B=4 the de-vigged probability of B is negative. *)
Example negative_no_consensus :
  naive_edge_run no_rounding elements negative = Stop NoConsensus.
Proof. vm_compute. reflexivity. Qed.

(** A price of 0 raises [ZeroDivisionError], which [naive_edge] swallows. *)
Example zero_price_swallowed :
  naive_edge_run no_rounding elements
    (match_of [ book [quote "A" 0; quote "B" 2] ])
  = Stop (Raised ZeroDivisionError)
  ∧ naive_edge no_rounding elements (match_of [ book [quote "A" 0; quote "B" 2] ]) = None.
Proof. split; vm_compute; reflexivity. Qed.

(** * Further properties of [naive_edge] *)

(** ** The scan, as an equation *)

Lemma quote_dict_has_market (b : Bookmaker) :
  quote_dict b
  = if has_market b then Some (outcomes_dict_of (quote_set b)) else None.
Proof. unfold quote_dict, has_market, quote_set. by destruct (markets b). Qed.

Lemma scan_bookmaker_eq (names : list string) (best : gmap string Q)
    (data : list BmData) (b : Bookmaker) :
  scan_bookmaker names (best, data) b
  = if has_market b then
      let od := outcomes_dict_of (quote_set b) in
      if has_zero_price names od then Stop (Raised ZeroDivisionError)
      else Ok (if usable names od
               then (best_update names best od, data ++ [row names od])
               else (best, data))
    else Stop (Raised IndexError).
Proof.
  unfold scan_bookmaker, first_market, has_market, quote_set, has_zero_price.
  destruct (markets b) as [|m ?]; [done|]. cbn [mbind result_bind].
  rewrite implied_loop. cbn zeta.
  destruct (existsb _ names) eqn:Hz; [done|]. cbn [mbind result_bind].
  rewrite foldl_insert_dict_of, devig_loop, foldl_insert_dict_of.
  unfold usable, total_implied_of. by destruct (Qeq_bool _ 0).
Qed.

Lemma scan_loop_eq (names : list string) (bms : list Bookmaker)
    (best : gmap string Q) (data : list BmData) :
  forallb has_market bms = true →
  foldlM (scan_bookmaker names) (best, data) bms
  = if existsb (has_zero_price names) (quote_dicts bms)
    then Stop (Raised ZeroDivisionError)
    else Ok (foldl (best_update names) best (usable_dicts names bms),
             data ++ (row names <$> usable_dicts names bms)).
Proof.
  unfold usable_dicts, quote_dicts. revert best data.
  induction bms as [|b bms IH]; intros best data Hall.
  - cbn. by rewrite app_nil_r.
  - cbn [forallb] in Hall. apply andb_true_iff in Hall as [Hb Hall].
    cbn [foldlM]. rewrite scan_bookmaker_eq, Hb. cbn zeta.
    rewrite fmap_cons. cbn [existsb List.filter].
    destruct (has_zero_price names _); [done|]. cbn [mbind result_bind orb].
    destruct (usable names _); rewrite IH by done;
      destruct (existsb _ _); try done.
    cbn [foldl]. by rewrite fmap_cons, <- app_assoc.
Qed.

Lemma scan_eq (names : list string) (bms : list Bookmaker) :
  forallb has_market bms = true →
  scan names bms
  = if existsb (has_zero_price names) (quote_dicts bms)
    then Stop (Raised ZeroDivisionError)
    else if is_nil (usable_dicts names bms) then Stop NoUsableBookmaker
    else Ok (foldl (best_update names) ∅ (usable_dicts names bms),
             row names <$> usable_dicts names bms).
Proof.
  intros Hall. unfold scan. rewrite scan_loop_eq by done.
  destruct (existsb _ _); [done|]. cbn [mbind result_bind].
  rewrite app_nil_l, length_fmap.
  by destruct (usable_dicts names bms).
Qed.

(** ** Lines 51-62 as an equation *)

Lemma game_bookmakers_nil (game : Game) :
  game_bookmakers game = []
  ↔ bookmakers game = None ∨ bookmakers game = Some [].
Proof.
  unfold game_bookmakers. destruct (bookmakers game) as [bms|]; simpl.
  - split; [intros ->; by right|]. by intros [?|[= ->]].
  - split; [by left|done].
Qed.

Lemma outcome_universe_eq (set_to_list : gset string → list string)
    (game : Game) :
  outcome_universe set_to_list game
  = if is_nil (game_bookmakers game) then Stop InsufficientOutcomes
    else if forallb has_market (game_bookmakers game)
    then if (size (OutcomeUniverse game) <? 2)%nat
         then Stop InsufficientOutcomes
         else Ok (game_bookmakers game, set_to_list (OutcomeUniverse game))
    else Stop (Raised IndexError).
Proof.
  unfold outcome_universe, OutcomeUniverse, game_bookmakers.
  destruct (bookmakers game) as [[|b bms]|]; [done| |done].
  cbn [default from_option id is_nil]. rewrite add_names_loop.
  destruct (forallb has_market (b :: bms)); [|done].
  cbn [mbind result_bind]. by rewrite (left_id_L ∅ (∪)).
Qed.

(** ** Well-formed games *)

Lemma positive_vig_free_pos (names : list string) (od : gmap string Q)
    (n : string) :
  NoDup names → n ∈ names → is_Some (od !! n) →
  (∀ k p, od !! k = Some p → 0 < p) →
  0 < vig_free (row names od) !!! n.
Proof.
  intros Hnd Hn [p Hp] Hpos.
  destruct (positive_usable names od n Hnd Hn (ex_intro _ p Hp) Hpos)
    as [Ht _].
  unfold row. cbn [vig_free]. rewrite !lookup_total_dict_of by done.
  apply Qlt_shift_div_l; [done|].
  unfold implied. rewrite Hp.
  assert (0 < 1 / p) by (apply Qlt_shift_div_l; [by eapply Hpos|lra]).
  lra.
Qed.

Lemma positive_no_zero_price (names : list string) (od : gmap string Q) :
  (∀ k p, od !! k = Some p → 0 < p) → has_zero_price names od = false.
Proof.
  intros Hpos. unfold has_zero_price.
  destruct (existsb (zero_price od) names) eqn:Hex; [|done].
  apply existsb_exists in Hex as (n & _ & Hz). unfold zero_price in Hz.
  destruct (od !! n) as [p|] eqn:Hp; [|done].
  apply Qeq_bool_iff in Hz. specialize (Hpos _ _ Hp). lra.
Qed.

Section WellFormed.

Variable rnd : Q → Q.
Variable set_to_list : gset string → list string.
Hypothesis set_to_list_NoDup : ∀ s, NoDup (set_to_list s).
Hypothesis set_to_list_elem : ∀ s x, x ∈ set_to_list s ↔ x ∈ s.

Lemma well_formed_universe (game : Game) :
  game_bookmakers game ≠ [] →
  forallb has_market (game_bookmakers game) = true →
  (2 <= size (OutcomeUniverse game))%nat →
  outcome_universe set_to_list game
  = Ok (game_bookmakers game, set_to_list (OutcomeUniverse game)).
Proof.
  intros Hne Hall Hsz. rewrite outcome_universe_eq, Hall.
  destruct (game_bookmakers game); [done|]. cbn [is_nil].
  by apply Nat.ltb_ge in Hsz as ->.
Qed.

Lemma well_formed_quotes (game : Game) (od : gmap string Q) :
  positive_prices game →
  od ∈ quote_dicts (game_bookmakers game) →
  ∀ k p, od !! k = Some p → 0 < p.
Proof.
  intros Hpos Hod k p Hk.
  apply list_elem_of_fmap in Hod as (b & -> & Hb).
  by eapply positive_quote_dict.
Qed.

(** In a well-formed game every outcome name is quoted by a usable
    bookmaker. *)
Lemma well_formed_quoted (game : Game) (n : string) :
  positive_prices game →
  n ∈ set_to_list (OutcomeUniverse game) →
  ∃ od, od ∈ usable_dicts (set_to_list (OutcomeUniverse game))
                          (game_bookmakers game)
        ∧ is_Some (od !! n)
        ∧ ∀ k p, od !! k = Some p → 0 < p.
Proof.
  intros Hpos Hn.
  pose proof Hn as Hb. apply set_to_list_elem in Hb.
  apply elem_of_names_of in Hb as (b & o & Hb & Ho & <-).
  assert (Hin : outcomes_dict_of (quote_set b)
                ∈ quote_dicts (game_bookmakers game)).
  { apply list_elem_of_fmap. by exists b. }
  pose proof (well_formed_quotes _ _ Hpos Hin) as Hq.
  pose proof (outcomes_dict_of_is_Some _ _ Ho) as Hs.
  exists (outcomes_dict_of (quote_set b)). split; [|done].
  apply list_elem_of_In, filter_In. split; [by apply list_elem_of_In|].
  by eapply positive_usable.
Qed.

Lemma well_formed_scan (game : Game) :
  well_formed game →
  scan (set_to_list (OutcomeUniverse game)) (game_bookmakers game)
  = Ok (foldl (best_update (set_to_list (OutcomeUniverse game))) ∅
          (usable_dicts (set_to_list (OutcomeUniverse game))
                        (game_bookmakers game)),
        row (set_to_list (OutcomeUniverse game))
          <$> usable_dicts (set_to_list (OutcomeUniverse game))
                           (game_bookmakers game)).
Proof.
  intros (Hne & Hall & Hsz & Hpos). rewrite scan_eq by done.
  assert (existsb (has_zero_price (set_to_list (OutcomeUniverse game)))
            (quote_dicts (game_bookmakers game)) = false) as ->.
  { destruct (existsb _ _) eqn:Hex; [|done].
    apply existsb_exists in Hex as (od & Hod & Hz).
    rewrite positive_no_zero_price in Hz; [done|].
    eapply well_formed_quotes; [done|]. by apply list_elem_of_In. }
  assert (∃ n, n ∈ set_to_list (OutcomeUniverse game)) as [n Hn].
  { destruct (set_to_list (OutcomeUniverse game)) as [|n l] eqn:Hl.
    - assert (size (OutcomeUniverse game) = 0%nat); [|lia].
      apply size_empty_iff, elem_of_equiv_empty. intros x Hx.
      apply set_to_list_elem in Hx.
      rewrite Hl in Hx. by apply not_elem_of_nil in Hx.
    - exists n. apply list_elem_of_here. }
  destruct (well_formed_quoted _ _ Hpos Hn) as (od & Hod & _).
  destruct (usable_dicts _ _); [|done]. by apply not_elem_of_nil in Hod.
Qed.

Lemma well_formed_candidates (game : Game) (best : gmap string Q) (n : string) :
  positive_prices game →
  n ∈ set_to_list (OutcomeUniverse game) →
  candidate_list best
    (row (set_to_list (OutcomeUniverse game))
       <$> usable_dicts (set_to_list (OutcomeUniverse game))
                        (game_bookmakers game)) n ≠ [].
Proof.
  intros Hpos Hn.
  destruct (well_formed_quoted _ _ Hpos Hn) as (od & Hod & Hs & Hq).
  set (names := set_to_list (OutcomeUniverse game)) in *.
  set (data := row names <$> usable_dicts names (game_bookmakers game)).
  assert (Hf : vig_free (row names od) !!! n ∈ fallback_candidates data n).
  { unfold fallback_candidates.
    apply list_elem_of_fmap. exists (row names od). split; [done|].
    apply list_elem_of_In, filter_In. split.
    - apply list_elem_of_In, list_elem_of_fmap. by exists od.
    - apply Qltb_lt. apply positive_vig_free_pos; try done.
      apply set_to_list_NoDup. }
  unfold candidate_list.
  destruct (primary_candidates best data n); [|done].
  intros Hnil. rewrite Hnil in Hf. by apply not_elem_of_nil in Hf.
Qed.

(** Estimation succeeds on every well-formed game. *)
Lemma well_formed_estimate (game : Game) :
  well_formed game →
  ∃ fair best,
    estimate set_to_list game
    = Ok (set_to_list (OutcomeUniverse game), fair, best).
Proof.
  intros Hwf. pose proof Hwf as (Hne & Hall & Hsz & Hpos).
  pose proof (well_formed_universe _ Hne Hall Hsz) as Hu.
  pose proof (well_formed_scan _ Hwf) as Hs.
  unfold estimate. rewrite Hu. cbn [mbind result_bind].
  rewrite Hs. cbn [mbind result_bind].
  destruct (consensus _ _ _) as [cp|f] eqn:Hc; cbn [mbind result_bind].
  - destruct (consensus_total_pos _ set_to_list_NoDup set_to_list_elem
                _ _ _ _ _ _ Hu Hc) as (_ & _ & ->).
    cbn [mbind result_bind]. by eexists _, _.
  - rewrite consensus_eq in Hc.
    destruct (existsb _ _) eqn:Hex; [|done].
    apply existsb_exists in Hex as (n & Hn & Hnil).
    apply list_elem_of_In in Hn.
    pose proof (well_formed_candidates game
                  (foldl (best_update (set_to_list (OutcomeUniverse game))) ∅
                     (usable_dicts (set_to_list (OutcomeUniverse game))
                                   (game_bookmakers game))) n Hpos Hn) as Hc'.
    apply is_nil_false in Hc'. congruence.
Qed.

End WellFormed.

(** ** Dictionaries and their key lists *)

Lemma dict_of_lookup_total (names : list string) (m : gmap string Q) :
  (∀ n, is_Some (m !! n) ↔ n ∈ names) →
  m = dict_of names (λ n, m !!! n).
Proof.
  intros Hdom. apply map_eq. intros k. rewrite lookup_dict_of.
  destruct (decide (k ∈ names)) as [Hk|Hk].
  - apply Hdom in Hk as [v Hv]. by rewrite lookup_total_alt, Hv.
  - destruct (m !! k) as [v|] eqn:Hv; [|done].
    exfalso. apply Hk, Hdom. by eexists.
Qed.

Lemma py_sum_dom (names : list string) (m : gmap string Q) :
  NoDup names → (∀ n, is_Some (m !! n) ↔ n ∈ names) →
  py_sum (dict_values m) == py_sum ((λ n, m !!! n) <$> names).
Proof.
  intros Hnd Hdom. rewrite (dict_of_lookup_total names m Hdom) at 1.
  by apply py_sum_dict_of.
Qed.

(** In a sum of at least two strictly positive terms every term is below
    the sum. *)
Lemma py_sum_term_lt (names : list string) (f : string → Q) (n : string) :
  (2 <= length names)%nat → n ∈ names →
  (∀ k, k ∈ names → 0 < f k) →
  f n < py_sum (f <$> names).
Proof.
  intros Hlen Hn Hpos.
  apply elem_of_Permutation in Hn as [rest Hperm].
  assert (Hrest : rest ≠ []).
  { intros ->. apply Permutation_length in Hperm. simpl in Hperm. lia. }
  rewrite (py_sum_perm _ (f <$> n :: rest)) by by rewrite Hperm.
  rewrite fmap_cons, py_sum_cons.
  assert (0 < py_sum (f <$> rest)); [|lra].
  apply py_sum_pos.
  - by destruct rest.
  - apply Forall_fmap, Forall_forall. intros k Hk. apply Hpos.
    rewrite Hperm. by apply list_elem_of_further.
Qed.

Section FurtherEstimator.

Variable rnd : Q → Q.
Variable set_to_list : gset string → list string.
Hypothesis set_to_list_NoDup : ∀ s, NoDup (set_to_list s).
Hypothesis set_to_list_elem : ∀ s x, x ∈ set_to_list s ↔ x ∈ s.

(** The double 0.05 lies above the initial [best_roi]. *)
Hypothesis threshold_above_init : -1 < threshold rnd.

Lemma naive_edge_Some (game : Game) (res : option string * Q * Q) :
  naive_edge rnd set_to_list game = Some res →
  ∃ names fair best,
    estimate set_to_list game = Ok (names, fair, best)
    ∧ select rnd names fair best = Ok res.
Proof.
  unfold naive_edge, naive_edge_run.
  destruct (estimate set_to_list game) as [[[names fair] best]|f]; [|done].
  cbn [mbind result_bind].
  destruct (select rnd names fair best) as [res'|f] eqn:Hsel; [|done].
  intros [= <-]. by exists names, fair, best.
Qed.

Lemma naive_edge_None (game : Game) :
  naive_edge rnd set_to_list game = None
  ↔ ∃ f, naive_edge_run rnd set_to_list game = Stop f.
Proof.
  unfold naive_edge. destruct (naive_edge_run rnd set_to_list game) as [r|f].
  - split; [done|]. by intros [? ?].
  - split; [|done]. intros _. by exists f.
Qed.

Lemma fair_probs_bounds (game : Game) (names : list string)
    (fair best : gmap string Q) (n : string) :
  estimate set_to_list game = Ok (names, fair, best) →
  n ∈ names → 0 < fair !!! n ∧ fair !!! n < 1.
Proof.
  intros Hest Hn.
  pose proof (fair_probs_spec _ set_to_list_NoDup set_to_list_elem
                _ _ _ _ Hest) as (Hnd & _ & Hdom & Hpos & Hsum).
  apply estimate_Ok in Hest as (bms & data & cp & Hu & _).
  pose proof (outcome_universe_names _ set_to_list_NoDup set_to_list_elem
                _ _ _ Hu) as (_ & _ & Hlen).
  split; [by apply Hpos|].
  rewrite (py_sum_dom names fair Hnd Hdom) in Hsum.
  pose proof (py_sum_term_lt names (λ k, fair !!! k) n Hlen Hn Hpos) as Hlt.
  simpl in Hlt. lra.
Qed.

(** X1 (well-formed games always estimate).  For a game of the data model
    (at least one bookmaker, each with a market, at least two distinct
    outcome names, strictly positive prices) none of the failure returns of
    the estimator is taken and no exception is raised: estimation succeeds,
    and [naive_edge] returns [None] exactly when every computed expected ROI
    is below 0.05, through the return of line 160. *)
Theorem well_formed_fails_only_on_threshold (game : Game) :
  well_formed game →
  ∃ names fair best,
    estimate set_to_list game = Ok (names, fair, best)
    ∧ (naive_edge rnd set_to_list game = None
       ↔ ∀ n b, n ∈ names → best !! n = Some b → roi rnd fair n b < threshold rnd)
    ∧ (naive_edge rnd set_to_list game = None →
       naive_edge_run rnd set_to_list game = Stop NoQualifyingPick).
Proof.
  intros Hwf.
  destruct (well_formed_estimate _ set_to_list_NoDup set_to_list_elem
              _ Hwf) as (fair & best & Hest).
  eexists _, fair, best. split; [exact Hest|].
  unfold naive_edge, naive_edge_run. rewrite Hest. cbn [mbind result_bind].
  rewrite <- (select_Stop_iff rnd threshold_above_init).
  destruct (select rnd _ fair best) as [res|f] eqn:Hsel.
  - split; [|done]. split; done.
  - apply select_Stop in Hsel as ->. split; done.
Qed.

(** X2 (fair probabilities are proper).  When estimation succeeds, the fair
    probability of every outcome of the OutcomeUniverse lies strictly between
    0 and 1. *)
Theorem fair_probs_strictly_between_0_and_1 (game : Game)
    (names : list string) (fair best : gmap string Q) :
  estimate set_to_list game = Ok (names, fair, best) →
  ∀ n, n ∈ OutcomeUniverse game → 0 < fair !!! n < 1.
Proof.
  intros Hest n Hn.
  pose proof (fair_probs_spec _ set_to_list_NoDup set_to_list_elem
                _ _ _ _ Hest) as (_ & Hnames & _).
  apply Hnames in Hn. by eapply fair_probs_bounds.
Qed.

Lemma naive_edge_Some_facts (game : Game) (pick : option string)
    (odds r : Q) :
  naive_edge rnd set_to_list game = Some (pick, odds, r) →
  threshold rnd <= r
  ∧ ∃ n, pick = Some n ∧ n ∈ OutcomeUniverse game.
Proof.
  intros (names & fair & best & Hest & Hsel)%naive_edge_Some.
  apply (select_Ok rnd threshold_above_init) in Hsel
    as (Hr & n & -> & -> & Hmax).
  apply first_max_elem in Hmax as (Hn & _ & _).
  pose proof (fair_probs_spec _ set_to_list_NoDup set_to_list_elem
                _ _ _ _ Hest) as (_ & Hnames & _).
  split; [done|]. exists n. split; [done|]. by apply Hnames.
Qed.

(** X4 (the reported odds are on offer).  The odds [naive_edge] returns with
    a pick are a price some bookmaker of the game quotes for the picked
    outcome, and no usable bookmaker quotes a higher one. *)
Theorem pick_odds_are_best_quote (game : Game) (pick : option string)
    (odds r : Q) :
  naive_edge rnd set_to_list game = Some (pick, odds, r) →
  ∃ n, pick = Some n
       ∧ (∃ b o, b ∈ game_bookmakers game ∧ o ∈ quote_set b
                 ∧ name o = n ∧ price o = odds)
       ∧ ∀ b p, b ∈ game_bookmakers game →
                usable (set_to_list (OutcomeUniverse game))
                       (outcomes_dict_of (quote_set b)) = true →
                outcomes_dict_of (quote_set b) !! n = Some p → p <= odds.
Proof.
  intros (names & fair & best & Hest & Hsel)%naive_edge_Some.
  apply (select_Ok rnd threshold_above_init) in Hsel
    as (_ & n & -> & _ & Hmax).
  apply first_max_elem in Hmax as (Hn & Hb & _).
  apply estimate_Ok in Hest as (bms & data & cp & Hu & Hs & _).
  pose proof (outcome_universe_names _ set_to_list_NoDup set_to_list_elem
                _ _ _ Hu) as (Hnd & _ & _).
  apply outcome_universe_Ok in Hu as (Hbms & _ & _ & -> & _).
  assert (game_bookmakers game = bms) as ->.
  { unfold game_bookmakers. by rewrite Hbms. }
  apply (scan_Ok _ _ _ _ Hnd) in Hs as (_ & _ & Hbest & _).
  rewrite (Hbest n Hn) in Hb.
  apply best_price_max in Hb as ((od & Hod & Hp) & Hall).
  exists n. split; [done|]. split.
  - apply list_elem_of_In, filter_In in Hod as [Hod _].
    apply list_elem_of_In, list_elem_of_fmap in Hod as (b & -> & Hb).
    apply outcomes_dict_of_lookup in Hp as (o & Ho & Hname & Hprice).
    by exists b, o.
  - intros b p' Hb' Hus Hp'. eapply Hall; [|exact Hp'].
    apply list_elem_of_In, filter_In. split; [|done].
    apply list_elem_of_In, list_elem_of_fmap. by exists b.
Qed.

(** X5 (a zero price spoils the game).  In a game whose bookmakers all have
    a market and that has at least two outcome names, one quote with price 0
    makes line 75 raise [ZeroDivisionError]; the [try] catches it and
    [naive_edge] returns [None], whatever the other quotes are. *)
Theorem zero_price_returns_None (game : Game) (b : Bookmaker) (n : string)
    (p : Q) :
  forallb has_market (game_bookmakers game) = true →
  (2 <= size (OutcomeUniverse game))%nat →
  b ∈ game_bookmakers game →
  outcomes_dict_of (quote_set b) !! n = Some p → p == 0 →
  naive_edge_run rnd set_to_list game = Stop (Raised ZeroDivisionError)
  ∧ naive_edge rnd set_to_list game = None.
Proof.
  intros Hall Hsz Hb Hp Hz.
  assert (Hne : game_bookmakers game ≠ []).
  { intros Heq. rewrite Heq in Hb. by apply not_elem_of_nil in Hb. }
  assert (Hrun : naive_edge_run rnd set_to_list game
                 = Stop (Raised ZeroDivisionError)).
  { unfold naive_edge_run, estimate.
    rewrite (well_formed_universe _ _ Hne Hall Hsz). cbn [mbind result_bind].
    rewrite scan_eq by done.
    assert (existsb (has_zero_price (set_to_list (OutcomeUniverse game)))
              (quote_dicts (game_bookmakers game)) = true) as ->; [|done].
    apply existsb_exists. exists (outcomes_dict_of (quote_set b)). split.
    - apply list_elem_of_In, list_elem_of_fmap. by exists b.
    - apply existsb_exists. exists n. split.
      + apply list_elem_of_In, set_to_list_elem, elem_of_names_of.
        apply outcomes_dict_of_lookup in Hp as (o & Ho & Hname & _).
        by exists b, o.
      + unfold zero_price. rewrite Hp. by apply Qeq_bool_iff. }
  split; [done|]. unfold naive_edge. by rewrite Hrun.
Qed.

(** X6 (a bookmaker without a market spoils the game).  If some bookmaker of
    a game has an empty list of markets, [markets[0]] raises [IndexError] in
    the first loop; the [try] catches it and [naive_edge] returns [None],
    whatever the other bookmakers quote. *)
Theorem missing_market_returns_None (game : Game) (b : Bookmaker) :
  b ∈ game_bookmakers game → markets b = [] →
  naive_edge_run rnd set_to_list game = Stop (Raised IndexError)
  ∧ naive_edge rnd set_to_list game = None.
Proof.
  intros Hb Hm.
  assert (Hrun : naive_edge_run rnd set_to_list game = Stop (Raised IndexError)).
  { unfold naive_edge_run, estimate. rewrite outcome_universe_eq.
    destruct (game_bookmakers game) as [|b0 bms] eqn:Hbms;
      [by apply not_elem_of_nil in Hb|].
    cbn [is_nil].
    assert (forallb has_market (b0 :: bms) = false) as ->; [|done].
    apply not_true_is_false. intros Hall.
    rewrite forallb_forall in Hall.
    specialize (Hall b (proj1 (list_elem_of_In _ _) Hb)).
    unfold has_market in Hall. by rewrite Hm in Hall. }
  split; [done|]. unfold naive_edge. by rewrite Hrun.
Qed.

End FurtherEstimator.

(** ** A game quoted by a single bookmaker *)

Lemma median_singleton (x : Q) : median [x] = x.
Proof. done. Qed.

Lemma dict_of_ext (names : list string) (f g : string → Q) :
  (∀ n, n ∈ names → f n = g n) → dict_of names f = dict_of names g.
Proof.
  intros Hfg. apply map_eq. intros k. rewrite !lookup_dict_of.
  destruct (decide (k ∈ names)); [|done]. by rewrite Hfg.
Qed.

(** The estimator with the iteration order made explicit. *)
Lemma estimate_eq (set_to_list : gset string → list string) (game : Game) :
  estimate set_to_list game
  = ('(bms, names) ← outcome_universe set_to_list game;
     '(best, data) ← scan names bms;
     cp ← consensus names best data;
     fair ← fair_probs_of names cp;
     Ok (names, fair, best)).
Proof. done. Qed.

Section SingleBookmaker.

Variable set_to_list : gset string → list string.
Hypothesis set_to_list_NoDup : ∀ s, NoDup (set_to_list s).
Hypothesis set_to_list_elem : ∀ s x, x ∈ set_to_list s ↔ x ∈ s.

(** X7 (a lone bookmaker cannot contradict itself).  In a well-formed game
    with a single bookmaker the consensus falls back to that bookmaker's own
    de-vigged probabilities: estimation succeeds, the best price of an
    outcome is the bookmaker's price [p], its fair probability is
    [(1/p) / total_implied], and the product [fair_probability * best_price]
    that line 150 starts from is the same for every outcome,
    [1 / total_implied] (in exact arithmetic). *)
Theorem single_bookmaker_roi (game : Game) (b : Bookmaker) :
  game_bookmakers game = [b] → well_formed game →
  let names := set_to_list (OutcomeUniverse game) in
  let total := total_implied_of names (outcomes_dict_of (quote_set b)) in
  ∃ fair best,
    estimate set_to_list game = Ok (names, fair, best)
    ∧ 0 < total
    ∧ ∀ n, n ∈ names →
        ∃ p, outcomes_dict_of (quote_set b) !! n = Some p
             ∧ best !! n = Some p
             ∧ fair !!! n == (1 / p) / total
             ∧ fair !!! n * p == 1 / total.
Proof.
  intros Hb Hwf names total.
  pose proof Hwf as (Hne & Hall & Hsz & Hpos).
  set (od := outcomes_dict_of (quote_set b)) in *.
  assert (Hnd : NoDup names) by apply set_to_list_NoDup.
  assert (Hq : ∀ k p, od !! k = Some p → 0 < p).
  { eapply well_formed_quotes; [exact Hpos|]. rewrite Hb.
    apply list_elem_of_here. }
  assert (Hquoted : ∀ n, n ∈ names → is_Some (od !! n)).
  { intros n Hn. apply set_to_list_elem, elem_of_names_of in Hn
      as (b' & o & Hb' & Ho & <-).
    rewrite Hb in Hb'. apply list_elem_of_singleton in Hb' as ->.
    by apply outcomes_dict_of_is_Some. }
  assert (Hn0 : ∃ n, n ∈ names).
  { destruct names as [|n l] eqn:Hl; [|exists n; apply list_elem_of_here].
    assert (size (OutcomeUniverse game) = 0%nat); [|lia].
    apply size_empty_iff, elem_of_equiv_empty. intros x Hx.
    apply set_to_list_elem in Hx. fold names in Hx. rewrite Hl in Hx.
    by apply not_elem_of_nil in Hx. }
  assert (Hus : 0 < total ∧ usable names od = true).
  { destruct Hn0 as [n Hn]. eapply positive_usable; eauto. }
  destruct Hus as [Htot Hus].
  assert (Huods : usable_dicts names (game_bookmakers game) = [od]).
  { unfold usable_dicts, quote_dicts. rewrite Hb. cbn. fold od.
    by rewrite Hus. }
  pose proof (well_formed_universe set_to_list game Hne Hall Hsz) as Hu.
  pose proof (well_formed_scan _ set_to_list_NoDup set_to_list_elem
                _ Hwf) as Hs.
  fold names in Hu, Hs. rewrite Huods in Hs. cbn [foldl fmap list_fmap] in Hs.
  set (best := best_update names ∅ od) in *.
  set (data := [row names od]) in *.
  assert (Hbest : ∀ n p, n ∈ names → od !! n = Some p → best !! n = Some p).
  { intros n p Hn Hp. unfold best.
    rewrite best_update_lookup, decide_True, Hp by done.
    by rewrite lookup_empty. }
  assert (Hcand : ∀ n, n ∈ names →
            candidate_list best data n = [vig_free (row names od) !!! n]).
  { intros n Hn. destruct (Hquoted n Hn) as [p Hp].
    assert (Hvf : 0 < vig_free (row names od) !!! n)
      by (apply positive_vig_free_pos; eauto).
    unfold candidate_list, primary_candidates, fallback_candidates, data.
    cbn [List.filter]. unfold quotes_best. cbn [outcomes_dict row].
    rewrite Hp, (Hbest n p Hn Hp).
    assert (Qeq_bool p p = true) as -> by by apply Qeq_bool_iff.
    cbn [negb andb fmap list_fmap].
    by apply Qltb_lt in Hvf as ->. }
  assert (Hcons : consensus names best data
                  = Ok (vig_free (row names od))).
  { rewrite consensus_eq.
    assert (existsb (λ n, is_nil (candidate_list best data n)) names
            = false) as ->.
    { destruct (existsb _ names) eqn:Hex; [|done].
      apply existsb_exists in Hex as (n & Hn & Hnil).
      apply list_elem_of_In in Hn. by rewrite (Hcand n Hn) in Hnil. }
    f_equal. unfold row. cbn [vig_free]. apply dict_of_ext.
    intros n Hn. rewrite (Hcand n Hn), median_singleton.
    unfold row. cbn [vig_free]. by rewrite lookup_total_dict_of. }
  assert (Hone : py_sum (dict_values (vig_free (row names od))) == 1).
  { unfold row. cbn [vig_free]. apply normalise_sum; [done|].
    fold (total_implied_of names od). fold total. lra. }
  assert (Hfair : fair_probs_of names (vig_free (row names od))
                  = Ok (dict_of names
                          (λ n, (vig_free (row names od) !!! n)
                                / py_sum (dict_values
                                            (vig_free (row names od)))))).
  { rewrite fair_probs_of_eq, Qeq_bool_false; [done|].
    rewrite Hone. lra. }
  set (fair := dict_of names _) in Hfair.
  assert (Hest : estimate set_to_list game = Ok (names, fair, best)).
  { rewrite estimate_eq, Hu. cbn [mbind result_bind].
    rewrite Hs. cbn [mbind result_bind]. rewrite Hcons.
    cbn [mbind result_bind]. by rewrite Hfair. }
  assert (Hfn : ∀ n p, n ∈ names → od !! n = Some p →
                       fair !!! n == (1 / p) / total).
  { intros n p Hn Hp. unfold fair.
    rewrite lookup_total_dict_of by done. rewrite Hone.
    unfold row. cbn [vig_free]. rewrite !lookup_total_dict_of by done.
    fold total. unfold implied. rewrite Hp.
    specialize (Hq _ _ Hp). field. split; lra. }
  exists fair, best. split; [done|]. split; [done|].
  intros n Hn. destruct (Hquoted n Hn) as [p Hp]. exists p.
  split; [done|]. split; [by apply Hbest|]. split; [by apply Hfn|].
  rewrite (Hfn n p Hn Hp). specialize (Hq _ _ Hp). field. split; lra.
Qed.

End SingleBookmaker.

(** * Further properties of the median (lines 119-129) *)

Lemma insert_asc_Forall2 (x : Q) (s1 s2 : list Q) :
  Forall2 Qeq s1 s2 → Forall2 Qeq (insert_asc x s1) (insert_asc x s2).
Proof.
  induction 1 as [|y1 y2 s1 s2 Hy Hs IH]; simpl.
  - by repeat constructor.
  - assert (Qle_bool x y1 = Qle_bool x y2) as ->.
    { destruct (Qle_bool x y1) eqn:H1; destruct (Qle_bool x y2) eqn:H2;
        try done.
      - apply Qle_bool_iff in H1. rewrite Hy in H1.
        apply Qle_bool_iff in H1. congruence.
      - apply Qle_bool_iff in H2. rewrite <- Hy in H2.
        apply Qle_bool_iff in H2. congruence. }
    destruct (Qle_bool x y2); by repeat constructor.
Qed.

Lemma Forall2_Qeq_refl (s : list Q) : Forall2 Qeq s s.
Proof. induction s; by constructor. Qed.

Lemma Forall2_Qeq_trans (s1 s2 s3 : list Q) :
  Forall2 Qeq s1 s2 → Forall2 Qeq s2 s3 → Forall2 Qeq s1 s3.
Proof.
  intros H12. revert s3. induction H12 as [|x y s1 s2 Hxy _ IH]; intros s3 H23.
  - by inversion H23.
  - inversion H23 as [|y' z s2' s3' Hyz Hs]; subst.
    constructor; [by rewrite Hxy|by apply IH].
Qed.

Lemma Qle_bool_false (a b : Q) : Qle_bool a b = false ↔ b < a.
Proof.
  split.
  - intros H. apply Qnot_le_lt. intros Hle. apply Qle_bool_iff in Hle.
    congruence.
  - intros H. destruct (Qle_bool a b) eqn:E; [|done].
    apply Qle_bool_iff in E. lra.
Qed.

Lemma insert_asc_comm (x y : Q) (s : list Q) :
  Forall2 Qeq (insert_asc x (insert_asc y s)) (insert_asc y (insert_asc x s)).
Proof.
  induction s as [|z s IH]; simpl.
  - destruct (Qle_bool x y) eqn:Hxy; destruct (Qle_bool y x) eqn:Hyx.
    + apply Qle_bool_iff in Hxy, Hyx.
      assert (x == y) by lra. by repeat constructor.
    + apply Forall2_Qeq_refl.
    + apply Forall2_Qeq_refl.
    + apply Qle_bool_false in Hxy, Hyx. lra.
  - destruct (Qle_bool y z) eqn:Hyz; destruct (Qle_bool x z) eqn:Hxz; simpl.
    + rewrite Hyz, Hxz.
      destruct (Qle_bool x y) eqn:Hxy; destruct (Qle_bool y x) eqn:Hyx.
      * apply Qle_bool_iff in Hxy, Hyx. assert (x == y) by lra.
        constructor; [done|]. constructor; [done|]. apply Forall2_Qeq_refl.
      * apply Forall2_Qeq_refl.
      * apply Forall2_Qeq_refl.
      * apply Qle_bool_false in Hxy, Hyx. lra.
    + rewrite Hyz, Hxz.
      assert (Qle_bool x y = false) as ->.
      { apply Qle_bool_false. apply Qle_bool_iff in Hyz.
        apply Qle_bool_false in Hxz. lra. }
      apply Forall2_Qeq_refl.
    + rewrite Hyz, Hxz.
      assert (Qle_bool y x = false) as ->.
      { apply Qle_bool_false. apply Qle_bool_iff in Hxz.
        apply Qle_bool_false in Hyz. lra. }
      apply Forall2_Qeq_refl.
    + rewrite Hyz, Hxz. constructor; [done|]. exact IH.
Qed.

(** [sorted] of two permutations of a list agree element by element. *)
Lemma sorted_perm_Qeq (l1 l2 : list Q) :
  l1 ≡ₚ l2 → Forall2 Qeq (sorted l1) (sorted l2).
Proof.
  unfold sorted. induction 1 as [|x l1 l2 _ IH|x y l|l1 l2 l3 _ IH1 _ IH2].
  - constructor.
  - simpl. by apply insert_asc_Forall2.
  - simpl. apply insert_asc_comm.
  - by eapply Forall2_Qeq_trans.
Qed.

Lemma Forall2_Qeq_lookup_total (s1 s2 : list Q) (i : nat) :
  Forall2 Qeq s1 s2 → s1 !!! i == s2 !!! i.
Proof.
  intros H. revert i. induction H as [|x y s1 s2 Hxy _ IH]; intros i.
  - done.
  - destruct i as [|i]; [done|]. apply IH.
Qed.

(** X9 (the median ignores the order of the candidates).  Two candidate
    lists that are permutations of each other have the same median, so the
    consensus probability of an outcome does not depend on the order in
    which the bookmakers contributed. *)
Theorem median_perm (l1 l2 : list Q) : l1 ≡ₚ l2 → median l1 == median l2.
Proof.
  intros Hperm. pose proof (sorted_perm_Qeq _ _ Hperm) as Hs.
  unfold median. rewrite !sorted_length, (Permutation_length Hperm).
  pose proof (λ i, Forall2_Qeq_lookup_total _ _ i Hs) as Hi.
  destruct (length l2 =? 1)%nat; [apply Hi|].
  destruct (length l2 mod 2 =? 0)%nat; [|apply Hi].
  by rewrite (Hi (length l2 / 2 - 1)%nat), (Hi (length l2 / 2)%nat).
Qed.

Lemma median_perm_witness :
  median [3 # 10; 1 # 2; 2 # 5] == median [1 # 2; 2 # 5; 3 # 10]
  ∧ median [1 # 2; 2 # 5; 3 # 10] == 2 # 5.
Proof.
  split; [|done]. apply median_perm.
  etrans; [apply Permutation_cons_append|]. done.
Defined.

(** ** The median is a median *)

Lemma sorted_StronglySorted (l : list Q) : StronglySorted Qle (sorted l).
Proof.
  apply Sorted_StronglySorted; [|apply sorted_ascending].
  intros x y z Hxy Hyz. lra.
Qed.

Lemma count_le_perm (m : Q) (l1 l2 : list Q) :
  l1 ≡ₚ l2 → count_le m l1 = count_le m l2.
Proof.
  unfold count_le. induction 1 as [|x l1 l2 _ IH|x y l|l1 l2 l3 _ IH1 _ IH2];
    simpl; try done.
  - destruct (Qle_bool x m); simpl; by rewrite IH.
  - by destruct (Qle_bool x m); destruct (Qle_bool y m).
  - by rewrite IH1.
Qed.

Lemma count_ge_perm (m : Q) (l1 l2 : list Q) :
  l1 ≡ₚ l2 → count_ge m l1 = count_ge m l2.
Proof.
  unfold count_ge. induction 1 as [|x l1 l2 _ IH|x y l|l1 l2 l3 _ IH1 _ IH2];
    simpl; try done.
  - destruct (Qle_bool m x); simpl; by rewrite IH.
  - by destruct (Qle_bool m x); destruct (Qle_bool m y).
  - by rewrite IH1.
Qed.

Lemma count_le_all (m : Q) (l : list Q) :
  Forall (λ x, x <= m) l → count_le m l = length l.
Proof.
  unfold count_le. induction 1 as [|x l Hx _ IH]; simpl; [done|].
  apply Qle_bool_iff in Hx as ->. simpl. by rewrite IH.
Qed.

Lemma count_ge_all (m : Q) (l : list Q) :
  Forall (λ x, m <= x) l → count_ge m l = length l.
Proof.
  unfold count_ge. induction 1 as [|x l Hx _ IH]; simpl; [done|].
  apply Qle_bool_iff in Hx as ->. simpl. by rewrite IH.
Qed.

Lemma count_le_app (m : Q) (l1 l2 : list Q) :
  count_le m (l1 ++ l2) = (count_le m l1 + count_le m l2)%nat.
Proof. unfold count_le. by rewrite List.filter_app, length_app. Qed.

Lemma count_ge_app (m : Q) (l1 l2 : list Q) :
  count_ge m (l1 ++ l2) = (count_ge m l1 + count_ge m l2)%nat.
Proof. unfold count_ge. by rewrite List.filter_app, length_app. Qed.

(** In an ascending list, the first [i+1] elements are at most the element
    at index [i], and the elements from index [i] on are at least it. *)
Lemma sorted_prefix_le (s : list Q) (i : nat) (m : Q) :
  StronglySorted Qle s → (i < length s)%nat → s !!! i <= m →
  (i + 1 <= count_le m s)%nat.
Proof.
  intros Hs Hi Hm.
  rewrite <- (take_drop (S i) s), count_le_app.
  assert (count_le m (take (S i) s) = S i); [|lia].
  rewrite count_le_all; [rewrite length_take; lia|].
  apply Forall_forall. intros x Hx.
  apply elem_of_take in Hx as (j & Hj & Hlt).
  assert (x <= s !!! i); [|lra].
  destruct (decide (j = i)) as [->|Hne].
  - rewrite (list_lookup_total_correct _ _ _ Hj). lra.
  - rewrite <- (take_drop i s) in Hs.
    eapply (StronglySorted_app_1_elem_of _ _ _ _ _ Hs).
    + apply list_elem_of_lookup. exists j.
      rewrite lookup_take_lt by lia. done.
    + apply list_elem_of_lookup. exists 0%nat.
      rewrite lookup_drop, Nat.add_0_r.
      by apply list_lookup_lookup_total_lt.
Qed.

Lemma sorted_suffix_ge (s : list Q) (i : nat) (m : Q) :
  StronglySorted Qle s → (i < length s)%nat → m <= s !!! i →
  (length s - i <= count_ge m s)%nat.
Proof.
  intros Hs Hi Hm.
  rewrite <- (take_drop i s) at 2. rewrite count_ge_app.
  assert (count_ge m (drop i s) = (length s - i)%nat); [|lia].
  rewrite count_ge_all; [by rewrite length_drop|].
  apply Forall_forall. intros x Hx.
  apply list_elem_of_lookup in Hx as (j & Hj).
  rewrite lookup_drop in Hj.
  assert (s !!! i <= x); [|lra].
  destruct j as [|j].
  - rewrite Nat.add_0_r in Hj.
    rewrite (list_lookup_total_correct _ _ _ Hj). lra.
  - rewrite <- (take_drop (S i) s) in Hs.
    eapply (StronglySorted_app_1_elem_of _ _ _ _ _ Hs).
    + apply list_elem_of_lookup. exists i.
      rewrite lookup_take_lt by lia.
      by apply list_lookup_lookup_total_lt.
    + apply list_elem_of_lookup. exists j.
      rewrite lookup_drop. rewrite <- Hj. f_equal. lia.
Qed.

Lemma sorted_lookup_mono (s : list Q) (i j : nat) :
  StronglySorted Qle s → (i <= j)%nat → (j < length s)%nat →
  s !!! i <= s !!! j.
Proof.
  intros Hs Hij Hj. destruct (decide (i = j)) as [->|Hne]; [lra|].
  rewrite <- (take_drop j s) in Hs.
  eapply (StronglySorted_app_1_elem_of _ _ _ _ _ Hs).
  - apply list_elem_of_lookup. exists i. rewrite lookup_take_lt by lia.
    apply list_lookup_lookup_total_lt. lia.
  - apply list_elem_of_lookup. exists 0%nat.
    rewrite lookup_drop, Nat.add_0_r. by apply list_lookup_lookup_total_lt.
Qed.

(** X10 (the median is a median).  For a nonempty candidate list, at least
    half of the candidates are at most the median and at least half are at
    least the median; in particular the median lies between the smallest and
    the largest candidate. *)
Theorem median_is_median (l : list Q) :
  l ≠ [] →
  (length l <= 2 * count_le (median l) l)%nat
  ∧ (length l <= 2 * count_ge (median l) l)%nat
  ∧ (∀ a, Forall (λ x, a <= x) l → a <= median l)
  ∧ (∀ b, Forall (λ x, x <= b) l → median l <= b).
Proof.
  intros Hne.
  pose proof (sorted_StronglySorted l) as Hs.
  pose proof (sorted_length l) as Hlen.
  assert (Hpos : (0 < length l)%nat) by (destruct l; [done|simpl; lia]).
  assert (Hhalf : (length l / 2 < length l)%nat) by (apply Nat.div_lt; lia).
  pose proof (Nat.div_mod_eq (length l) 2) as Hdm.
  assert (Hmod : (length l mod 2 < 2)%nat) by (apply Nat.mod_upper_bound; lia).
  rewrite <- (count_le_perm _ _ _ (sorted_perm l)).
  rewrite <- (count_ge_perm _ _ _ (sorted_perm l)).
  assert (Hin : ∀ i, (i < length l)%nat → sorted l !!! i ∈ l).
  { intros i Hi.
    assert (sorted l !!! i ∈ sorted l) as Hi'
      by (apply list_elem_of_lookup_total_2; lia).
    revert Hi'. generalize (sorted l !!! i). intros x Hx.
    by rewrite sorted_perm in Hx. }
  unfold median. rewrite Hlen.
  set (s := sorted l) in *. set (n := length l) in *.
  destruct (n =? 1)%nat eqn:H1.
  { apply Nat.eqb_eq in H1.
    pose proof (sorted_prefix_le s 0 (s !!! 0%nat) Hs ltac:(lia) ltac:(lra)).
    pose proof (sorted_suffix_ge s 0 (s !!! 0%nat) Hs ltac:(lia) ltac:(lra)).
    split; [lia|]. split; [lia|]. split.
    - intros a Ha. rewrite Forall_forall in Ha. apply Ha, Hin. lia.
    - intros b Hb. rewrite Forall_forall in Hb. apply Hb, Hin. lia. }
  apply Nat.eqb_neq in H1.
  destruct (n mod 2 =? 0)%nat eqn:H2.
  - apply Nat.eqb_eq in H2.
    assert (Hk : (1 <= n / 2)%nat) by lia.
    pose proof (sorted_lookup_mono s (n / 2 - 1) (n / 2) Hs
                  ltac:(lia) ltac:(lia)) as Hmono.
    set (lo := s !!! (n / 2 - 1)%nat) in *.
    set (hi := s !!! (n / 2)%nat) in *.
    assert (Hlo : lo <= (lo + hi) / 2) by (apply Qle_shift_div_l; lra).
    assert (Hhi : (lo + hi) / 2 <= hi) by (apply Qle_shift_div_r; lra).
    pose proof (sorted_prefix_le s (n / 2 - 1) _ Hs ltac:(lia) Hlo).
    pose proof (sorted_suffix_ge s (n / 2) _ Hs ltac:(lia) Hhi).
    split; [lia|]. split; [lia|]. split.
    + intros a Ha. rewrite Forall_forall in Ha.
      assert (a <= lo) by (apply Ha, Hin; lia). lra.
    + intros b Hb. rewrite Forall_forall in Hb.
      assert (hi <= b) by (apply Hb, Hin; lia). lra.
  - apply Nat.eqb_neq in H2.
    pose proof (sorted_prefix_le s (n / 2) (s !!! (n / 2)%nat) Hs
                  ltac:(lia) ltac:(lra)).
    pose proof (sorted_suffix_ge s (n / 2) (s !!! (n / 2)%nat) Hs
                  ltac:(lia) ltac:(lra)).
    split; [lia|]. split; [lia|]. split.
    + intros a Ha. rewrite Forall_forall in Ha. apply Ha, Hin. lia.
    + intros b Hb. rewrite Forall_forall in Hb. apply Hb, Hin. lia.
Qed.

Lemma median_is_median_witness :
  (4 <= 2 * count_le (median [1 # 2; 1 # 5; 3 # 10; 2 # 5])
                     [1 # 2; 1 # 5; 3 # 10; 2 # 5])%nat
  ∧ median [1 # 2; 1 # 5; 3 # 10; 2 # 5] == 7 # 20.
Proof.
  split; [|done].
  exact (proj1 (median_is_median [1 # 2; 1 # 5; 3 # 10; 2 # 5]
                  ltac:(discriminate))).
Defined.

(** * Further properties of the ranking and of [tips] *)

Section FurtherRanking.

Variable rnd : Q → Q.
Variable set_to_list : gset string → list string.

Lemma top_picks_eq (games : list Game) :
  top_picks rnd set_to_list games
  = match omap (value_pick_of rnd set_to_list) games with
    | [] => None
    | q => Some (take MAX_PICKS_PER_SPORT (sort_desc q))
    end.
Proof.
  unfold top_picks. rewrite collect_loop_eq, app_nil_l.
  by destruct (omap _ games).
Qed.

Lemma top_picks_Some (games : list Game) (top : list ValuePick) :
  top_picks rnd set_to_list games = Some top →
  omap (value_pick_of rnd set_to_list) games ≠ []
  ∧ top = take MAX_PICKS_PER_SPORT
               (sort_desc (omap (value_pick_of rnd set_to_list) games)).
Proof.
  rewrite top_picks_eq.
  destruct (omap (value_pick_of rnd set_to_list) games); [done|].
  by intros [= <-].
Qed.

(** X11 (a failing game does not disturb the others).  A game for which
    [naive_edge] returns [None], wherever it stands among the games of a
    sport, changes nothing: the top picks are those of the other games. *)
Theorem failing_game_is_transparent (games1 games2 : list Game)
    (game : Game) :
  naive_edge rnd set_to_list game = None →
  top_picks rnd set_to_list (games1 ++ game :: games2)
  = top_picks rnd set_to_list (games1 ++ games2).
Proof.
  intros Hnone. rewrite !top_picks_eq, !omap_app.
  assert (omap (value_pick_of rnd set_to_list) (game :: games2)
          = omap (value_pick_of rnd set_to_list) games2) as ->; [|done].
  simpl. unfold value_pick_of at 1. by rewrite Hnone.
Qed.

(** X12 (the shown picks are the best ones).  When a sport has a block, it
    shows [min 5 q] picks, where [q] is the number of games with a pick; the
    picks left out are the remaining ones and none of them has a greater
    expected ROI than a shown pick.  With at most 5 qualifying games every
    pick is shown. *)
Theorem top_picks_are_the_best (games : list Game) (out : list ValuePick) :
  top_picks rnd set_to_list games = Some out →
  let qualifying := omap (value_pick_of rnd set_to_list) games in
  (1 <= length out)%nat
  ∧ length out = (length qualifying `min` 5)%nat
  ∧ (∃ rest, qualifying ≡ₚ out ++ rest
             ∧ ∀ x y, x ∈ out → y ∈ rest → edge_of y <= edge_of x)
  ∧ ((length qualifying <= 5)%nat → out ≡ₚ qualifying).
Proof.
  intros Htop qualifying. rewrite top_picks_eq in Htop. fold qualifying in Htop.
  assert (Hq : qualifying ≠ [] ∧
               out = take MAX_PICKS_PER_SPORT (sort_desc qualifying)).
  { destruct qualifying; [done|]. by injection Htop as <-. }
  destruct Hq as [Hne ->]. unfold MAX_PICKS_PER_SPORT.
  assert (Hlen : length (sort_desc qualifying) = length qualifying)
    by by rewrite sort_desc_perm.
  split; [|split; [|split]].
  - rewrite length_take, Hlen. destruct qualifying; [done|simpl; lia].
  - rewrite length_take, Hlen. lia.
  - exists (drop 5 (sort_desc qualifying)). split.
    + by rewrite take_drop, sort_desc_perm.
    + intros x y Hx Hy.
      pose proof (sort_desc_Sorted qualifying) as Hs.
      rewrite <- (take_drop 5 (sort_desc qualifying)) in Hs.
      by apply (StronglySorted_app_1_elem_of _ _ _ _ _ Hs).
  - intros Hle. rewrite take_ge by lia. apply sort_desc_perm.
Qed.

End FurtherRanking.

Lemma failing_game_is_transparent_witness :
  top_picks no_rounding elements ([scenario_B] ++ degenerate :: [omitting])
  = top_picks no_rounding elements ([scenario_B] ++ [omitting]).
Proof.
  apply (failing_game_is_transparent no_rounding elements [scenario_B] [omitting]
           degenerate).
  vm_compute. reflexivity.
Defined.

Lemma top_picks_are_the_best_witness :
  ∃ out, top_picks no_rounding elements [scenario_A; scenario_B; omitting] = Some out
         ∧ length out = 2%nat.
Proof.
  assert (∃ out, top_picks no_rounding elements [scenario_A; scenario_B; omitting]
                 = Some out) as [out Hout]
    by (eexists; vm_compute; reflexivity).
  exists out. split; [exact Hout|].
  destruct (top_picks_are_the_best no_rounding elements _ _ Hout) as (_ & -> & _).
  vm_compute. reflexivity.
Defined.

(** ** The blocks of a run *)

Lemma foldl_snoc_omap {A B} (f : A → option B) (l : list A) (acc : list B) :
  foldl (λ msg x, match f x with
                  | Some b => msg ++ [b]
                  | None => msg
                  end) acc l
  = acc ++ omap f l.
Proof.
  revert acc. induction l as [|x l IH]; intros acc; simpl.
  - by rewrite app_nil_r.
  - rewrite IH. destruct (f x); [by rewrite <- app_assoc|done].
Qed.

Lemma omap_length_le {A B} (f : A → option B) (l : list A) :
  (length (omap f l) <= length l)%nat.
Proof.
  induction l as [|x l IH]; [done|].
  change (length (omap f l) <= length l)%nat
    with (length (list_omap A B f l) <= length l)%nat in IH.
  simpl. destruct (f x); simpl; lia.
Qed.

Lemma length_join_le {A} (ls : list (list A)) (k : nat) :
  Forall (λ l, (length l <= k)%nat) ls →
  (length (mjoin ls) <= k * length ls)%nat.
Proof.
  induction 1 as [|l ls Hl _ IH]; [simpl; lia|].
  change (mjoin (l :: ls)) with (l ++ mjoin ls).
  rewrite length_app. cbn [length]. lia.
Qed.

Lemma value_pick_of_Some (rnd : Q → Q)
    (set_to_list : gset string → list string) (game : Game) (x : ValuePick) :
  value_pick_of rnd set_to_list game = Some x →
  x.1.1.2 = game
  ∧ naive_edge rnd set_to_list game = Some (x.1.2, x.2, edge_of x).
Proof.
  unfold value_pick_of.
  destruct (naive_edge rnd set_to_list game) as [[[pick odds] edge]|]; [|done].
  by intros [= <-].
Qed.

Section FurtherTips.

Variable rnd : Q → Q.
Variable set_to_list : gset string → list string.
Variable odds : string → list Game.

Lemma tips_blocks_eq :
  tips_blocks rnd set_to_list odds = omap (sport_block rnd set_to_list odds) SPORTS.
Proof. unfold tips_blocks. by rewrite foldl_snoc_omap. Qed.

Lemma top_picks_elem (games : list Game) (top : list ValuePick)
    (x : ValuePick) :
  top_picks rnd set_to_list games = Some top → x ∈ top →
  ∃ game, game ∈ games
          ∧ naive_edge rnd set_to_list game = Some (x.1.2, x.2, edge_of x).
Proof.
  intros [_ ->]%top_picks_Some Hx. apply subseteq_take in Hx.
  rewrite sort_desc_perm in Hx.
  apply list_elem_of_omap in Hx as (game & Hgame & Hpick).
  exists game. split; [done|].
  by apply value_pick_of_Some in Hpick as [_ ?].
Qed.

Lemma top_picks_is_Some (games : list Game) :
  is_Some (top_picks rnd set_to_list games)
  ↔ ∃ game, game ∈ games ∧ is_Some (naive_edge rnd set_to_list game).
Proof.
  rewrite top_picks_eq. split.
  - destruct (omap (value_pick_of rnd set_to_list) games) as [|x q] eqn:Hq;
      [by intros [? ?]|].
    intros _. assert (x ∈ omap (value_pick_of rnd set_to_list) games) as Hx
      by (rewrite Hq; apply list_elem_of_here).
    apply list_elem_of_omap in Hx as (game & Hgame & Hpick).
    exists game. split; [done|].
    apply value_pick_of_Some in Hpick as [_ ->]. by eexists.
  - intros (game & Hgame & [[[pick o] r] Hne]).
    assert ((r, game, pick, o) ∈ omap (value_pick_of rnd set_to_list) games)
      as Hx.
    { apply list_elem_of_omap. exists game. split; [done|].
      unfold value_pick_of. by rewrite Hne. }
    destruct (omap (value_pick_of rnd set_to_list) games);
      [by apply not_elem_of_nil in Hx|by eexists].
Qed.

Lemma sport_block_Some (sport : string) (block : string * list ValuePick) :
  sport_block rnd set_to_list odds sport = Some block ↔
  block.1 = sport_name sport
  ∧ top_picks rnd set_to_list (odds sport) = Some block.2.
Proof.
  unfold sport_block. destruct block as [name top]. cbn [fst snd].
  destruct (odds sport) as [|g games] eqn:Hodds; cbn [is_nil].
  - split; [done|]. intros [_ Htop]. by rewrite top_picks_eq in Htop.
  - destruct (top_picks rnd set_to_list (g :: games)) as [top'|].
    + split; [by intros [= <- <-]|]. by intros [-> [= <-]].
    + split; [done|]. by intros [_ ?].
Qed.

(** X13 (one block per sport with a pick, in the order of [SPORTS]).  [msg]
    holds, in the order of [SPORTS], one block for every sport that has a
    game with a pick and none for the others (no games, or no qualifying
    game); a block carries the sport's header name and its top picks, between
    1 and 5 of them in non-increasing order of expected ROI; there are at
    most 11 blocks. *)
Theorem tips_blocks_structure :
  tips_blocks rnd set_to_list odds = omap (sport_block rnd set_to_list odds) SPORTS
  ∧ (length (tips_blocks rnd set_to_list odds) <= 11)%nat
  ∧ (∀ sport,
       is_Some (sport_block rnd set_to_list odds sport)
       ↔ ∃ game, game ∈ odds sport ∧ is_Some (naive_edge rnd set_to_list game))
  ∧ (∀ block,
       block ∈ tips_blocks rnd set_to_list odds →
       ∃ sport, sport ∈ SPORTS
                ∧ block.1 = sport_name sport
                ∧ top_picks rnd set_to_list (odds sport) = Some block.2
                ∧ (1 <= length block.2 <= 5)%nat
                ∧ StronglySorted edge_ge block.2).
Proof.
  split; [apply tips_blocks_eq|]. split; [|split].
  - rewrite tips_blocks_eq.
    etrans; [apply omap_length_le|]. done.
  - intros sport. rewrite <- top_picks_is_Some. split.
    + intros [block [_ Htop]%sport_block_Some]. by eexists.
    + intros [top Htop]. exists (sport_name sport, top).
      by apply sport_block_Some.
  - intros block Hblock. rewrite tips_blocks_eq in Hblock.
    apply list_elem_of_omap in Hblock as (sport & Hsport & Hb).
    apply sport_block_Some in Hb as [Hname Htop].
    exists sport. split; [done|]. split; [done|]. split; [done|].
    destruct (top_picks_Some _ _ _ _ Htop) as [Hne Heq].
    rewrite Heq. unfold MAX_PICKS_PER_SPORT.
    set (q := omap (value_pick_of rnd set_to_list) (odds sport)) in *.
    split.
    + rewrite length_take.
      assert (length (sort_desc q) = length q) as ->
        by by rewrite sort_desc_perm.
      assert (1 <= length q)%nat by (destruct q; [done|simpl; lia]).
      lia.
    + eapply StronglySorted_app_1_l. rewrite take_drop.
      apply sort_desc_Sorted.
Qed.

(** X15 (when the no-picks message is sent).  The reply is "No games with
    value picks found today." exactly when [naive_edge] returns [None] for
    every game of every sport of [SPORTS]. *)
Theorem no_picks_reply_iff :
  no_picks_reply rnd set_to_list odds = true
  ↔ ∀ sport game, sport ∈ SPORTS → game ∈ odds sport →
                  naive_edge rnd set_to_list game = None.
Proof.
  unfold no_picks_reply. rewrite tips_blocks_eq. split.
  - intros Hnil sport game Hsport Hgame.
    destruct (naive_edge rnd set_to_list game) as [res|] eqn:Hne; [|done].
    assert (is_Some (top_picks rnd set_to_list (odds sport))) as [top Htop].
    { apply top_picks_is_Some. exists game. by rewrite Hne. }
    assert ((sport_name sport, top)
            ∈ omap (sport_block rnd set_to_list odds) SPORTS) as Hin.
    { apply list_elem_of_omap. exists sport. split; [done|].
      by apply sport_block_Some. }
    destruct (omap _ SPORTS); [by apply not_elem_of_nil in Hin|done].
  - intros Hall.
    destruct (omap (sport_block rnd set_to_list odds) SPORTS) as [|block l] eqn:Hb;
      [done|].
    assert (block ∈ omap (sport_block rnd set_to_list odds) SPORTS) as Hin
      by (rewrite Hb; apply list_elem_of_here).
    apply list_elem_of_omap in Hin as (sport & Hsport & Hblock).
    apply sport_block_Some in Hblock as [_ Htop].
    assert (is_Some (top_picks rnd set_to_list (odds sport))) as Hs by by eexists.
    apply top_picks_is_Some in Hs as (game & Hgame & [res Hres]).
    by rewrite (Hall sport game Hsport Hgame) in Hres.
Qed.

Hypothesis set_to_list_NoDup : ∀ s, NoDup (set_to_list s).
Hypothesis set_to_list_elem : ∀ s x, x ∈ set_to_list s ↔ x ∈ s.

(** The double 0.05 lies above the initial [best_roi]. *)
Hypothesis threshold_above_init : -1 < threshold rnd.

(** X14 (what the language model is asked about).  A run of [tips] calls
    [kimi_tip] at most 55 times, and only under the name of a sport of
    [SPORTS], for picks that name an outcome and whose computed expected ROI
    is at least 0.05. *)
Theorem kimi_requests_bounded :
  (length (kimi_requests rnd set_to_list odds) <= 55)%nat
  ∧ ∀ name pick o edge,
      (name, pick, o, edge) ∈ kimi_requests rnd set_to_list odds →
      (∃ sport, sport ∈ SPORTS ∧ name = sport_name sport)
      ∧ (∃ n, pick = Some n)
      ∧ threshold rnd <= edge.
Proof.
  destruct tips_blocks_structure as (_ & Hlen & _ & Hblocks).
  unfold kimi_requests. split.
  - etrans; [apply (length_join_le _ 5)|].
    + apply Forall_fmap, Forall_forall. intros block Hblock. simpl.
      rewrite length_fmap.
      by destruct (Hblocks block Hblock) as (_ & _ & _ & _ & [_ H5] & _).
    + rewrite length_fmap. lia.
  - intros name pick o edge Hin.
    apply list_elem_of_join in Hin as (reqs & Hin & Hreqs).
    apply list_elem_of_fmap in Hreqs as (block & -> & Hblock).
    apply list_elem_of_fmap in Hin as (x & Heq & Hx).
    injection Heq as -> -> -> ->.
    destruct (Hblocks block Hblock) as (sport & Hsport & Hname & Htop & _).
    split; [by exists sport|].
    destruct (top_picks_elem _ _ _ Htop Hx) as (game & _ & Hne).
    apply (naive_edge_Some_facts _ _ set_to_list_NoDup set_to_list_elem
             threshold_above_init)
      in Hne as (Hr & n & Hn & _).
    split; [by exists n|]. done.
Qed.

End FurtherTips.

Lemma kimi_requests_bounded_witness :
  (length (kimi_requests binary64 elements example_odds) <= 55)%nat
  ∧ length (kimi_requests binary64 elements example_odds) = 2%nat.
Proof.
  split; [|vm_compute; reflexivity].
  assert (Hthr : -1 < threshold binary64) by (vm_compute; reflexivity).
  exact (proj1 (kimi_requests_bounded binary64 elements example_odds
                  (λ s, NoDup_elements s) (λ s x, elem_of_elements s x)
                  Hthr)).
Defined.

(** * Properties of [get_odds] and its cache *)

Lemma sport_name_chars (f : Ascii.ascii → Ascii.ascii) (s : string) :
  chars (string_map f s) = f <$> chars s.
Proof. induction s as [|c s IH]; simpl; [done|]. by rewrite IH. Qed.

Lemma sport_name_char (c : Ascii.ascii) :
  let c' := if Ascii.eqb (upper_ascii c) underscore then space
            else upper_ascii c in
  c' ≠ underscore ∧ is_lower_ascii c' = false.
Proof.
  destruct c as [[] [] [] [] [] [] [] []]; vm_compute; split; congruence.
Qed.

(** X16 (headers are safe for Markdown).  The sport name of a block header
    contains no underscore and no lowercase ASCII letter, whatever the sport
    identifier is. *)
Theorem sport_name_no_underscore (sport : string) :
  ∀ c, c ∈ chars (sport_name sport) →
       c ≠ underscore ∧ is_lower_ascii c = false.
Proof.
  intros c. unfold sport_name, py_replace, py_upper.
  rewrite !sport_name_chars, <- list_fmap_compose.
  intros (c0 & -> & _)%list_elem_of_fmap. apply sport_name_char.
Qed.

(** ** The time bucket *)

Lemma ttl_hash_floor (now : Q) :
  0 <= now → ttl_hash now = (Qfloor now / 900)%Z.
Proof.
  intros Hnow. unfold ttl_hash, Qfloor. destruct now as [num den].
  cbn [Qnum Qden]. rewrite Z.quot_div_nonneg; [done| |done].
  unfold Qle in Hnow. simpl in Hnow. lia.
Qed.

(** X17 (fifteen-minute buckets).  For a clock reading [now >= 0] the cache
    key component [ttl_hash] is [k] exactly when [900 k <= now < 900 (k+1)]:
    two readings share a key exactly when they fall in the same window of 900
    seconds. *)
Theorem ttl_hash_window (now : Q) (k : Z) :
  0 <= now →
  ttl_hash now = k
  ↔ inject_Z (900 * k) <= now ∧ now < inject_Z (900 * (k + 1)).
Proof.
  intros Hnow. rewrite ttl_hash_floor by done.
  pose proof (Qfloor_le now) as Hle. pose proof (Qlt_floor now) as Hlt.
  split.
  - intros <-.
    pose proof (Z.mul_div_le (Qfloor now) 900 ltac:(lia)) as H1.
    pose proof (Z.mul_succ_div_gt (Qfloor now) 900 ltac:(lia)) as H2.
    split.
    + apply Qle_trans with (inject_Z (Qfloor now)); [|done].
      rewrite <- Zle_Qle. lia.
    + apply Qlt_le_trans with (inject_Z (Qfloor now + 1)); [done|].
      rewrite <- Zle_Qle. lia.
  - intros [H1 H2].
    assert (900 * k <= Qfloor now)%Z as Hk1.
    { rewrite <- (Qfloor_Z (900 * k)). by apply Qfloor_resp_le. }
    assert (Qfloor now < 900 * (k + 1))%Z as Hk2.
    { rewrite Zlt_Qlt. eapply Qle_lt_trans; [exact Hle|exact H2]. }
    symmetry. apply (Z.div_unique_pos _ _ _ (Qfloor now - 900 * k)); lia.
Qed.

Lemma ttl_hash_window_witness :
  ttl_hash (1700000123 # 1) = 1888889%Z
  ∧ ttl_hash (17000008999 # 10) = 1888889%Z.
Proof.
  split; apply ttl_hash_window; vm_compute; intuition discriminate.
Defined.

(** ** The cache of [lru_cache(maxsize=32)] *)

Lemma cache_find_None (key : CacheKey) (cache : list (CacheKey * list Game)) :
  cache_find key cache = None ↔ key ∉ cache.*1.
Proof.
  induction cache as [|[k v] cache IH]; simpl.
  - split; [intros _; apply not_elem_of_nil|done].
  - destruct (decide (k = key)) as [->|Hne].
    + split; [done|]. intros H. exfalso. apply H, list_elem_of_here.
    + rewrite IH. split.
      * intros H [?|?]%elem_of_cons; [congruence|done].
      * intros H H'. apply H. by apply list_elem_of_further.
Qed.

Lemma cache_find_Some (key : CacheKey) (v : list Game)
    (cache : list (CacheKey * list Game)) :
  cache_find key cache = Some v → (key, v) ∈ cache.
Proof.
  induction cache as [|[k v'] cache IH]; simpl; [done|].
  destruct (decide (k = key)) as [->|Hne].
  - intros [= ->]. apply list_elem_of_here.
  - intros H. apply list_elem_of_further. by apply IH.
Qed.

Lemma cache_find_middle (key : CacheKey) (v : list Game)
    (pre post : list (CacheKey * list Game)) :
  key ∉ pre.*1 → cache_find key (pre ++ (key, v) :: post) = Some v.
Proof.
  induction pre as [|[k v'] pre IH]; simpl; intros Hpre.
  - by rewrite decide_True.
  - rewrite decide_False.
    + apply IH. intros H. apply Hpre. by apply list_elem_of_further.
    + intros ->. apply Hpre, list_elem_of_here.
Qed.

Lemma cache_remove_keys (key : CacheKey)
    (cache : list (CacheKey * list Game)) :
  (cache_remove key cache).*1 = filter (λ k, k ≠ key) cache.*1.
Proof.
  unfold cache_remove. induction cache as [|[k v] cache IH]; [done|].
  rewrite fmap_cons. cbn [fst].
  destruct (decide (k = key)) as [->|Hne].
  - rewrite !filter_cons_False by (simpl; tauto). exact IH.
  - rewrite !filter_cons_True by done. rewrite fmap_cons. by f_equal.
Qed.

Lemma lru_call_ok (key : CacheKey) (compute : list Game)
    (cache : list (CacheKey * list Game)) :
  cache_ok cache → cache_ok (lru_call key compute cache).2.
Proof.
  intros [Hnd Hlen]. unfold lru_call, cache_ok.
  destruct (cache_find key cache) as [v|] eqn:Hfind; cbn [snd].
  - apply cache_find_Some in Hfind. split.
    + rewrite fmap_app, cache_remove_keys. apply NoDup_app.
      split; [by apply NoDup_filter|]. split; [|apply NoDup_singleton].
      intros k [Hk _]%list_elem_of_filter ->%list_elem_of_singleton. done.
    + rewrite length_app. cbn [length].
      assert (length (cache_remove key cache) < length cache)%nat; [|lia].
      unfold cache_remove. apply (length_filter_lt _ _ (key, v)); [done|].
      simpl. tauto.
  - apply cache_find_None in Hfind.
    destruct (maxsize <=? length cache)%nat eqn:Hfull.
    + apply Nat.leb_le in Hfull.
      destruct cache as [|e rest];
        [unfold maxsize in Hfull; simpl in Hfull; lia|].
      cbn [tail]. rewrite fmap_cons in Hnd, Hfind.
      apply NoDup_cons in Hnd as [_ Hnd]. split.
      * rewrite fmap_app. apply NoDup_app.
        split; [done|]. split; [|apply NoDup_singleton].
        intros k Hk ->%list_elem_of_singleton. apply Hfind.
        by apply list_elem_of_further.
      * rewrite length_app. simpl in *. lia.
    + split.
      * rewrite fmap_app. apply NoDup_app.
        split; [done|]. split; [|apply NoDup_singleton].
        by intros k Hk ->%list_elem_of_singleton.
      * rewrite length_app. cbn [length].
        apply Nat.leb_gt in Hfull. lia.
Qed.

Lemma cache_after_ok (calls : list Call)
    (cache : list (CacheKey * list Game)) :
  cache_ok cache → cache_ok (cache_after calls cache).
Proof.
  unfold cache_after. revert cache.
  induction calls as [|c calls IH]; intros cache Hok; [done|].
  cbn [foldl]. apply IH. by apply lru_call_ok.
Qed.

(** X18 (the cache stays within bounds).  Whatever calls of [get_odds] a
    process makes, the cache never holds more than 32 entries and never two
    entries for the same sport and time bucket. *)
Theorem cache_bounded (calls : list Call) :
  NoDup (cache_after calls []).*1
  ∧ (length (cache_after calls []) <= 32)%nat.
Proof.
  apply (cache_after_ok calls []). split; [constructor|].
  unfold maxsize. simpl. lia.
Qed.

(** ** An entry survives 31 other keys *)

Lemma NoDup_length_le_size (l : list CacheKey) (s : gset CacheKey) :
  NoDup l → (∀ k, k ∈ l → k ∈ s) → (length l <= size s)%nat.
Proof.
  intros Hnd Hsub. rewrite <- (size_list_to_set (C := gset CacheKey) l Hnd).
  apply subseteq_size. intros k Hk. apply elem_of_list_to_set in Hk.
  by apply Hsub.
Qed.

Lemma entry_kept_hit (key : CacheKey) (v compute : list Game)
    (others : gset CacheKey) (cache : list (CacheKey * list Game)) :
  entry_kept key v others cache →
  (lru_call key compute cache).1 = v
  ∧ entry_kept key v others (lru_call key compute cache).2.
Proof.
  intros [Hok (pre & post & Hc & Hpost)].
  assert (Hfind : cache_find key cache = Some v).
  { rewrite Hc. apply cache_find_middle.
    destruct Hok as [Hnd _]. rewrite Hc, fmap_app in Hnd.
    apply NoDup_app in Hnd as (_ & Hdisj & _). intros Hin.
    apply (Hdisj key Hin). rewrite fmap_cons. apply list_elem_of_here. }
  split; [unfold lru_call; by rewrite Hfind|].
  split; [by apply lru_call_ok|].
  unfold lru_call. rewrite Hfind. cbn [snd].
  exists (cache_remove key cache), []. split; [done|].
  intros k Hk. by apply not_elem_of_nil in Hk.
Qed.

Lemma entry_kept_other (key key' : CacheKey) (v compute : list Game)
    (others : gset CacheKey) (cache : list (CacheKey * list Game)) :
  key ∉ others → (size others <= 31)%nat → key' ∈ others →
  entry_kept key v others cache →
  entry_kept key v others (lru_call key' compute cache).2.
Proof.
  intros Hkey Hsize Hkey' [Hok (pre & post & Hc & Hpost)].
  assert (Hne : key ≠ key') by (intros ->; done).
  split; [by apply lru_call_ok|].
  unfold lru_call.
  destruct (cache_find key' cache) as [v'|] eqn:Hfind; cbn [snd].
  - exists (cache_remove key' pre), (cache_remove key' post ++ [(key', v')]).
    split.
    + rewrite Hc. unfold cache_remove. rewrite filter_app.
      rewrite filter_cons_True by done. by rewrite <- app_assoc.
    + intros k. rewrite fmap_app, elem_of_app, cache_remove_keys.
      intros [[_ Hk]%list_elem_of_filter|Hk%list_elem_of_singleton].
      * by apply Hpost.
      * by subst k.
  - apply cache_find_None in Hfind.
    destruct (maxsize <=? length cache)%nat eqn:Hfull.
    + apply Nat.leb_le in Hfull.
      destruct pre as [|e pre].
      * exfalso. destruct Hok as [Hnd _].
        rewrite Hc in Hnd, Hfind, Hfull. simpl in Hnd, Hfind, Hfull.
        apply NoDup_cons in Hnd as [_ Hnd].
        assert (length post.*1 <= size (others ∖ {[key']}))%nat as Hle.
        { apply NoDup_length_le_size; [done|]. intros k Hk.
          apply elem_of_difference. split; [by apply Hpost|].
          intros ->%elem_of_singleton. apply Hfind.
          by apply list_elem_of_further. }
        rewrite length_fmap in Hle.
        assert (size (others ∖ {[key']}) < size others)%nat.
        { apply subset_size. set_solver. }
        unfold maxsize in Hfull. lia.
      * exists pre, (post ++ [(key', compute)]). split.
        { rewrite Hc. simpl. by rewrite <- app_assoc. }
        intros k. rewrite fmap_app, elem_of_app.
        intros [Hk|Hk%list_elem_of_singleton]; [by apply Hpost|by subst k].
    + exists pre, (post ++ [(key', compute)]). split.
      { rewrite Hc. by rewrite <- app_assoc. }
      intros k. rewrite fmap_app, elem_of_app.
      intros [Hk|Hk%list_elem_of_singleton]; [by apply Hpost|by subst k].
Qed.

Lemma entry_kept_after (key : CacheKey) (v : list Game)
    (others : gset CacheKey) (calls : list Call)
    (cache : list (CacheKey * list Game)) :
  key ∉ others → (size others <= 31)%nat →
  (∀ c, c ∈ calls → call_key c = key ∨ call_key c ∈ others) →
  entry_kept key v others cache →
  entry_kept key v others (cache_after calls cache).
Proof.
  intros Hkey Hsize. unfold cache_after. revert cache.
  induction calls as [|c calls IH]; intros cache Hcalls Hkept; [done|].
  cbn [foldl]. apply IH.
  - intros c' Hc'. apply Hcalls. by apply list_elem_of_further.
  - unfold get_odds_call, get_odds.
    destruct (Hcalls c (list_elem_of_here _ _)) as [Hk|Hk].
    + fold (call_key c). rewrite Hk. by apply entry_kept_hit.
    + fold (call_key c). by apply entry_kept_other.
Qed.

Lemma entry_kept_first (key : CacheKey) (compute : list Game)
    (others : gset CacheKey) (cache : list (CacheKey * list Game)) :
  cache_ok cache →
  entry_kept key (lru_call key compute cache).1 others
    (lru_call key compute cache).2.
Proof.
  intros Hok. split; [by apply lru_call_ok|].
  unfold lru_call. destruct (cache_find key cache) as [v|]; cbn [fst snd].
  - exists (cache_remove key cache), []. split; [done|].
    intros k Hk. by apply not_elem_of_nil in Hk.
  - eexists _, []. split; [done|].
    intros k Hk. by apply not_elem_of_nil in Hk.
Qed.

(** X19 (an answer is reused for the rest of its time bucket).  After a call
    of [get_odds] for a sport, every later call for the same sport in the
    same time bucket returns the same games, whatever the network would
    answer then, as long as the calls in between use at most 31 other
    (sport, bucket) keys.  This holds for the empty list of a failed request
    as well. *)
Theorem get_odds_reuses_answer (cache : list (CacheKey * list Game))
    (net net' : string → Response) (now now' : Q) (sport : string)
    (calls : list Call) :
  cache_ok cache →
  ttl_hash now' = ttl_hash now →
  (size (list_to_set (call_key <$> calls) ∖ {[ (sport, ttl_hash now) ]}
           : gset CacheKey) <= 31)%nat →
  (get_odds net' now' sport
     (cache_after calls (get_odds net now sport cache).2)).1
  = (get_odds net now sport cache).1.
Proof.
  intros Hok Hbucket Hsize.
  set (key := (sport, ttl_hash now)) in *.
  set (others := (list_to_set (call_key <$> calls) ∖ {[ key ]}
                  : gset CacheKey)) in *.
  unfold get_odds at 1. rewrite Hbucket. fold key.
  apply entry_kept_hit with (others := others).
  apply entry_kept_after; [set_solver|done| |].
  - intros c Hc. destruct (decide (call_key c = key)) as [?|Hne]; [by left|].
    right. apply elem_of_difference. split; [|set_solver].
    apply elem_of_list_to_set, list_elem_of_fmap. by exists c.
  - unfold get_odds. fold key. by apply entry_kept_first.
Qed.

Lemma get_odds_reuses_answer_witness :
  (get_odds (net_ok [scenario_B]) (1700000500 # 1) "darts"
     (cache_after [ (net_ok [], 1700000300 # 1, "badminton"%string) ]
        (get_odds net_down (1700000123 # 1) "darts" []).2)).1
  = [].
Proof.
  rewrite (get_odds_reuses_answer [] net_down (net_ok [scenario_B])
             (1700000123 # 1) (1700000500 # 1) "darts"
             [ (net_ok [], 1700000300 # 1, "badminton"%string) ]).
  - reflexivity.
  - split; [constructor|]. unfold maxsize. simpl. lia.
  - vm_compute. reflexivity.
  - vm_compute. lia.
Defined.
